(** * SnakeyBoi: the Snake game (main.cpp, scored variant) and the particle
      emitter of crispyOctoSporkEngine.h, as a shallow embedding.

    Conventions of the embedding.
    - Grid coordinates and velocities are [float] in the source but only
      ever hold small whole numbers (0, 1, -1, 8, [rand() % GRID_WIDTH], sums
      of these), on which float arithmetic is exact: they are [Z] here.
    - [deltaTime] of the game is the difference of two millisecond tick
      counts (Engine::Update), a whole number: it is [Z], and so is
      [secondAccumulator].  The one division of the move scheduler is done
      in [Q].
    - The floats of the particle emitter (life times, positions, speed) are
      rationals [Q]: the arithmetic of float32 is taken to be exact, as it is
      on whole numbers below 2^24, and the statements that depend on the
      value of a float name the range they are made for.  A conversion to
      [int] truncates towards zero and has the range of a 32-bit [int].
    - [rand()] is a stream [rand : nat -> Z]; the number of calls made so far
      is part of the state.
    - [std::vector::operator[]] and the pool array are read and written
      through checked accesses: an access outside the bounds ends the run
      with [OutOfBounds].  A [while] loop runs on fuel and ends the run with
      [Diverges] when the fuel is used up. *)

From Stdlib Require Import ZArith QArith Qround Lia Lqa Bool List.
From stdpp Require Import base list.

Close Scope Q_scope.
Open Scope Z_scope.

(** ** Outcomes of a run *)

Inductive outcome (A : Type) : Type :=
| Done (a : A)
| OutOfBounds
| Diverges.

Arguments Done {A} a.
Arguments OutOfBounds {A}.
Arguments Diverges {A}.

#[global] Instance outcome_ret : MRet outcome := fun A a => Done a.
#[global] Instance outcome_bind : MBind outcome := fun A B k m =>
  match m with
  | Done a => k a
  | OutOfBounds => OutOfBounds
  | Diverges => Diverges
  end.

(** [v[i]] on a vector or array. *)
Definition vec_at {A} (v : list A) (i : nat) : outcome A :=
  match v !! i with
  | Some a => Done a
  | None => OutOfBounds
  end.

(** [for (int i = 0; i < n; i++) body], started at index [i]. *)
Fixpoint for_from {St} (i n : nat) (body : nat -> St -> outcome St) (s : St)
  : outcome St :=
  match n with
  | O => Done s
  | S n' => s' ← body i s; for_from (S i) n' body s'
  end.

Definition for_loop {St} (n : nat) (body : nat -> St -> outcome St) (s : St)
  : outcome St := for_from 0 n body s.

(** [a < b] on the rationals, as a boolean. *)
Definition Qltb (a b : Q) : bool := negb (Qle_bool b a).

(** Truncation towards zero. *)
Definition Qtrunc (q : Q) : Z :=
  if Qle_bool 0 q then Qfloor q else Qceiling q.

Definition INT_MIN : Z := - 2 ^ 31.
Definition INT_MAX : Z := 2 ^ 31 - 1.

(** Conversion of a float to a 32-bit [int]: the truncated value when that
    is an [int].  For any other value C++ leaves the result open; the
    conversion instruction of x86 (cvttss2si), which compilers emit for it,
    gives [INT_MIN], and so does this model. *)
Definition toInt (q : Q) : Z :=
  let z := Qtrunc q in
  if (INT_MIN <=? z) && (z <=? INT_MAX) then z else INT_MIN.

(** ** The Snake game *)

Module Snake.

Inductive GameState := MENU | PLAYING | LOSE | PAUSE.

(** [struct Tail] *)
Record Tail := mkTail { tail_x : Z; tail_y : Z }.

(** The scancodes the game reads from [SDL_GetKeyboardState]. *)
Inductive Scancode :=
| SDL_SCANCODE_W | SDL_SCANCODE_UP
| SDL_SCANCODE_S | SDL_SCANCODE_DOWN
| SDL_SCANCODE_A | SDL_SCANCODE_LEFT
| SDL_SCANCODE_D | SDL_SCANCODE_RIGHT
| SDL_SCANCODE_ESCAPE | SDL_SCANCODE_SPACE.

Definition KeyStates := Scancode -> bool.

(** The textures of the game and the calls of [Texture::Render]. *)
Inductive TextureId := snake_texture | apple_texture | score_texture
                     | menu_texture | lose_texture.

Inductive RenderCall :=
| Render (t : TextureId) (px py : Z)
| RenderCentered (t : TextureId).

(** [class SnakeGame]: the fields of the game, of [struct Snake],
    [struct Apple] and [struct Score], and the position in the [rand()]
    stream. *)
Record SnakeGame := mkGame {
  state : GameState;
  movesPerformedThisSecond : Z;
  secondAccumulator : Z;
  xVelocity : Z;
  yVelocity : Z;
  tail : list Tail;
  tailLength : nat;
  apple_x : Z;
  apple_y : Z;
  score : Z;
  randCalls : nat
}.

Definition WIDTH : Z := 640.
Definition HEIGHT : Z := 480.
Definition GRID_SIZE : Z := 32.
Definition GRID_WIDTH : Z := WIDTH / GRID_SIZE.
Definition GRID_HEIGHT : Z := HEIGHT / GRID_SIZE.
Definition movesPerSecond : Q := 10.

(** The game as constructed: the member initialisers of the class. *)
Definition initial : SnakeGame :=
  {| state := MENU; movesPerformedThisSecond := 0; secondAccumulator := 0;
     xVelocity := 0; yVelocity := 0; tail := []; tailLength := 0;
     apple_x := 0; apple_y := 0; score := 0; randCalls := 0 |}.

(** The two [if]s applied to each coordinate of the new head
    (OnUpdatePlaying, lines 556-574). *)
Definition wrap (gridDimension v : Z) : Z :=
  let v := if gridDimension - 1 <? v then 0 else v in
  if v <? 0 then gridDimension - 1 else v.

(** The loop [for i < tailLength: if tail[i] is at (px, py) then flag]
    (lines 576-582 and 601-607). *)
Definition segmentAt (tl : list Tail) (n : nat) (px py : Z) : outcome bool :=
  for_loop n (fun i flag =>
    seg ← vec_at tl i;
    mret (if (tail_x seg =? px) && (tail_y seg =? py) then true else flag))
    false.

(** The head of the move scheduler of OnUpdatePlaying (lines 536-549):
    the flag [moveThisFrameUpdate], then the new count and accumulator. *)
Definition moveScheduler (deltaTime moves acc : Z) : bool * Z * Z :=
  let acc := acc + deltaTime in
  let '(acc, moves) := if 1000 <=? acc then (0, 0) else (acc, moves) in
  if Qltb (inject_Z moves) (inject_Z acc * movesPerSecond / 1000)
  then (true, moves + 1, acc)
  else (false, moves, acc).

Section WithRand.

Variable rand : nat -> Z.

Definition InitPlayingState (g : SnakeGame) : SnakeGame :=
  let startingX := 8 in
  let startingY := 8 in
  let xv := 1 in
  let len := 6%nat in
  {| state := state g;
     movesPerformedThisSecond := movesPerformedThisSecond g;
     secondAccumulator := secondAccumulator g;
     xVelocity := xv; yVelocity := 0;
     tail := (fun i => mkTail (startingX + (- xv * Z.of_nat i)) startingY)
               <$> seq 0 len;
     tailLength := len;
     apple_x := Z.rem (rand (randCalls g)) GRID_WIDTH;
     apple_y := Z.rem (rand (S (randCalls g))) GRID_HEIGHT;
     score := 0;
     randCalls := S (S (randCalls g)) |}.

Definition set_state (s : GameState) (g : SnakeGame) : SnakeGame :=
  {| state := s;
     movesPerformedThisSecond := movesPerformedThisSecond g;
     secondAccumulator := secondAccumulator g;
     xVelocity := xVelocity g; yVelocity := yVelocity g;
     tail := tail g; tailLength := tailLength g;
     apple_x := apple_x g; apple_y := apple_y g;
     score := score g; randCalls := randCalls g |}.

Definition set_velocity (xv yv : Z) (g : SnakeGame) : SnakeGame :=
  {| state := state g;
     movesPerformedThisSecond := movesPerformedThisSecond g;
     secondAccumulator := secondAccumulator g;
     xVelocity := xv; yVelocity := yv;
     tail := tail g; tailLength := tailLength g;
     apple_x := apple_x g; apple_y := apple_y g;
     score := score g; randCalls := randCalls g |}.

Definition set_schedule (moves acc : Z) (g : SnakeGame) : SnakeGame :=
  {| state := state g;
     movesPerformedThisSecond := moves;
     secondAccumulator := acc;
     xVelocity := xVelocity g; yVelocity := yVelocity g;
     tail := tail g; tailLength := tailLength g;
     apple_x := apple_x g; apple_y := apple_y g;
     score := score g; randCalls := randCalls g |}.

Definition OnEventMenu (keys : KeyStates) (g : SnakeGame) : SnakeGame :=
  if keys SDL_SCANCODE_SPACE
  then InitPlayingState (set_state PLAYING g)
  else g.

Definition OnEventPlaying (keys : KeyStates) (g : SnakeGame) : SnakeGame :=
  if keys SDL_SCANCODE_W || keys SDL_SCANCODE_UP then
    if negb (yVelocity g =? 1) then set_velocity 0 (-1) g else g
  else if keys SDL_SCANCODE_S || keys SDL_SCANCODE_DOWN then
    if negb (yVelocity g =? -1) then set_velocity 0 1 g else g
  else if keys SDL_SCANCODE_A || keys SDL_SCANCODE_LEFT then
    if negb (xVelocity g =? 1) then set_velocity (-1) 0 g else g
  else if keys SDL_SCANCODE_D || keys SDL_SCANCODE_RIGHT then
    if negb (xVelocity g =? -1) then set_velocity 1 0 g else g
  else if keys SDL_SCANCODE_ESCAPE then set_state MENU g
  else g.

Definition OnEvent (keys : KeyStates) (g : SnakeGame) : SnakeGame :=
  match state g with
  | MENU => OnEventMenu keys g
  | PLAYING => OnEventPlaying keys g
  | LOSE => OnEventMenu keys g
  | PAUSE => g
  end.

(** The [while (!validAppleSpawn)] loop (lines 593-608): the apple chosen
    and the number of [rand()] calls after it. *)
Fixpoint respawnApple (fuel : nat) (tl : list Tail) (n : nat) (calls : nat)
  : outcome (Z * Z * nat) :=
  match fuel with
  | O => Diverges
  | S fuel' =>
      let ax := Z.rem (rand calls) GRID_WIDTH in
      let ay := Z.rem (rand (S calls)) GRID_HEIGHT in
      taken ← segmentAt tl n ax ay;
      if negb taken (* validAppleSpawn *)
      then Done (ax, ay, S (S calls))
      else respawnApple fuel' tl n (S (S calls))
  end.

(** The body of [if (moveThisFrameUpdate)] (lines 553-615). *)
Definition simulationStep (fuel : nat) (g : SnakeGame) : outcome SnakeGame :=
  head0 ← vec_at (tail g) 0;
  let newHeadX := wrap GRID_WIDTH (tail_x head0 + xVelocity g) in
  let newHeadY := wrap GRID_HEIGHT (tail_y head0 + yVelocity g) in
  hit ← segmentAt (tail g) (tailLength g) newHeadX newHeadY;
  let st := if (hit : bool) then LOSE else state g in
  let newHead := mkTail newHeadX newHeadY in
  let tl := newHead :: tail g in
  front ← vec_at tl 0;
  if (tail_x front =? apple_x g) && (tail_y front =? apple_y g) then
    spawn ← respawnApple fuel tl (tailLength g) (randCalls g);
    let '(ax, ay, calls) := (spawn : Z * Z * nat) in
    Done {| state := st;
            movesPerformedThisSecond := movesPerformedThisSecond g;
            secondAccumulator := secondAccumulator g;
            xVelocity := xVelocity g; yVelocity := yVelocity g;
            tail := tl; tailLength := S (tailLength g);
            apple_x := ax; apple_y := ay;
            score := score g + 1; randCalls := calls |}
  else
    Done {| state := st;
            movesPerformedThisSecond := movesPerformedThisSecond g;
            secondAccumulator := secondAccumulator g;
            xVelocity := xVelocity g; yVelocity := yVelocity g;
            tail := removelast tl; tailLength := tailLength g;
            apple_x := apple_x g; apple_y := apple_y g;
            score := score g; randCalls := randCalls g |}.

(** The render calls that end OnUpdatePlaying (lines 618-625). *)
Definition renderPlaying (g : SnakeGame) : outcome (list RenderCall) :=
  segs ← for_loop (tailLength g) (fun i drawn =>
            seg ← vec_at (tail g) i;
            mret (drawn ++ [Render snake_texture (tail_x seg * GRID_SIZE)
                                                 (tail_y seg * GRID_SIZE)]))
          [];
  mret (Render apple_texture (apple_x g * GRID_SIZE) (apple_y g * GRID_SIZE)
          :: segs ++ [Render score_texture 10 10]).

Definition OnUpdatePlaying (fuel : nat) (deltaTime : Z) (g : SnakeGame)
  : outcome (SnakeGame * list RenderCall) :=
  let '(moveThisFrameUpdate, moves, acc) :=
    moveScheduler deltaTime (movesPerformedThisSecond g) (secondAccumulator g) in
  let g := set_schedule moves acc g in
  g ← (if moveThisFrameUpdate then simulationStep fuel g else Done g);
  drawn ← renderPlaying g;
  mret (g, drawn).

Definition OnUpdateMenu (g : SnakeGame) : SnakeGame * list RenderCall :=
  (g, [Render menu_texture 0 0]).

Definition OnUpdateLose (g : SnakeGame) : SnakeGame * list RenderCall :=
  (g, [Render lose_texture 0 0; RenderCentered score_texture]).

Definition OnUpdate (fuel : nat) (deltaTime : Z) (g : SnakeGame)
  : outcome (SnakeGame * list RenderCall) :=
  match state g with
  | MENU => Done (OnUpdateMenu g)
  | PLAYING => OnUpdatePlaying fuel deltaTime g
  | LOSE => Done (OnUpdateLose g)
  | PAUSE => Done (g, [])
  end.

(** The states the main loop of Engine::Update can bring the game to: any
    number of events, each with the key states of its moment, and frame
    updates that return. *)
Inductive reachable : SnakeGame -> Prop :=
| reach_initial : reachable initial
| reach_event g keys : reachable g -> reachable (OnEvent keys g)
| reach_update g fuel deltaTime g' drawn :
    reachable g ->
    OnUpdate fuel deltaTime g = Done (g', drawn) ->
    reachable g'.

End WithRand.

(** *** Vocabulary of the statements *)

(** A segment lies on the cell [(px, py)]: the test of the two scan loops. *)
Definition isAt (px py : Z) (seg : Tail) : bool :=
  (tail_x seg =? px) && (tail_y seg =? py).

(** The wrapped new head of a step (lines 553-574, 584). *)
Definition newHead (g : SnakeGame) : option Tail :=
  head0 ← tail g !! 0%nat;
  Some (mkTail (wrap GRID_WIDTH (tail_x head0 + xVelocity g))
               (wrap GRID_HEIGHT (tail_y head0 + yVelocity g))).

(** The scheduler's verdict for a frame of [deltaTime] milliseconds. *)
Definition stepDue (deltaTime : Z) (g : SnakeGame) : bool :=
  (moveScheduler deltaTime (movesPerformedThisSecond g)
                 (secondAccumulator g)).1.1.

Definition appleCell (g : SnakeGame) : Tail :=
  mkTail (apple_x g) (apple_y g).

(** The state a step leaves: LOSE when the new head [h] is on one of the
    first [tailLength] segments (lines 576-582). *)
Definition stepState (g : SnakeGame) (h : Tail) : GameState :=
  if existsb (isAt (tail_x h) (tail_y h)) (take (tailLength g) (tail g))
  then LOSE else state g.

(** The game after a step to [h] that eats no apple. *)
Definition movedGame (g : SnakeGame) (h : Tail) : SnakeGame :=
  {| state := stepState g h;
     movesPerformedThisSecond := movesPerformedThisSecond g;
     secondAccumulator := secondAccumulator g;
     xVelocity := xVelocity g; yVelocity := yVelocity g;
     tail := removelast (h :: tail g); tailLength := tailLength g;
     apple_x := apple_x g; apple_y := apple_y g;
     score := score g; randCalls := randCalls g |}.

(** The game after a step to [h] that eats the apple, the new apple being
    [(ax, ay)]. *)
Definition grownGame (g : SnakeGame) (h : Tail) (ax ay : Z) (calls : nat)
  : SnakeGame :=
  {| state := stepState g h;
     movesPerformedThisSecond := movesPerformedThisSecond g;
     secondAccumulator := secondAccumulator g;
     xVelocity := xVelocity g; yVelocity := yVelocity g;
     tail := h :: tail g; tailLength := S (tailLength g);
     apple_x := ax; apple_y := ay;
     score := score g + 1; randCalls := calls |}.

(** The game with the scheduler's new count and accumulator. *)
Definition scheduled (deltaTime : Z) (g : SnakeGame) : SnakeGame :=
  let s := moveScheduler deltaTime (movesPerformedThisSecond g)
                         (secondAccumulator g) in
  set_schedule s.1.2 s.2 g.

(** What every frame start satisfies: the vector holds [tailLength]
    segments, at least one while PLAYING. *)
Definition consistent (g : SnakeGame) : Prop :=
  length (tail g) = tailLength g /\ (state g = PLAYING -> tail g <> []).

(** The render calls of a PLAYING frame over the whole segment vector. *)
Definition frame (g : SnakeGame) : list RenderCall :=
  Render apple_texture (apple_x g * GRID_SIZE) (apple_y g * GRID_SIZE)
  :: ((fun seg => Render snake_texture (tail_x seg * GRID_SIZE)
                                        (tail_y seg * GRID_SIZE)) <$> tail g)
  ++ [Render score_texture 10 10].

(** Modelled on the words of the specification, to be compared with
    [moveScheduler]: the target is [floor(accumulator * movesPerSecond /
    1000)]. *)
Definition moveScheduler_floor (deltaTime moves acc : Z) : bool * Z * Z :=
  let acc := acc + deltaTime in
  let '(acc, moves) := if 1000 <=? acc then (0, 0) else (acc, moves) in
  if moves <? Qfloor (inject_Z acc * movesPerSecond / 1000)
  then (true, moves + 1, acc)
  else (false, moves, acc).

(** The scheduler over consecutive PLAYING frames: the number of steps
    signalled, then the final count and accumulator. *)
Fixpoint runFrames (deltas : list Z) (moves acc : Z) : nat * Z * Z :=
  match deltas with
  | [] => (O, moves, acc)
  | deltaTime :: rest =>
      let '(due, moves, acc) := moveScheduler deltaTime moves acc in
      let '(steps, moves', acc') := runFrames rest moves acc in
      (if due then S steps else steps, moves', acc')
  end.

Definition sumZ (l : list Z) : Z := foldr Z.add 0 l.

(** The four directions of the keyboard, in the order OnEventPlaying tests
    them. *)
Inductive Direction := Up | Down | Left | Right.

Definition held (keys : KeyStates) (d : Direction) : bool :=
  match d with
  | Up => keys SDL_SCANCODE_W || keys SDL_SCANCODE_UP
  | Down => keys SDL_SCANCODE_S || keys SDL_SCANCODE_DOWN
  | Left => keys SDL_SCANCODE_A || keys SDL_SCANCODE_LEFT
  | Right => keys SDL_SCANCODE_D || keys SDL_SCANCODE_RIGHT
  end.

Definition firstHeld (keys : KeyStates) : option Direction :=
  find (held keys) [Up; Down; Left; Right].

Definition unitVector (d : Direction) : Z * Z :=
  match d with
  | Up => (0, -1)
  | Down => (0, 1)
  | Left => (-1, 0)
  | Right => (1, 0)
  end.

Definition velocity (g : SnakeGame) : Z * Z := (xVelocity g, yVelocity g).

Definition opposite (v : Z * Z) : Z * Z := (- v.1, - v.2).

Definition perpendicular (v w : Z * Z) : Prop := v.1 * w.1 + v.2 * w.2 = 0.

(** The key states with only the first key of a direction held. *)
Definition only (d : Direction) : KeyStates := fun k =>
  match d, k with
  | Up, SDL_SCANCODE_W | Down, SDL_SCANCODE_S
  | Left, SDL_SCANCODE_A | Right, SDL_SCANCODE_D => true
  | _, _ => false
  end.

(** The [k]-th cell the respawn search draws, from [calls] calls on. *)
Definition sample (rand : nat -> Z) (calls k : nat) : Z * Z :=
  (Z.rem (rand (calls + 2 * k)%nat) GRID_WIDTH,
   Z.rem (rand (S (calls + 2 * k))) GRID_HEIGHT).

(** The cell is on none of the first [n] segments. *)
Definition freeCell (tl : list Tail) (n : nat) (c : Z * Z) : bool :=
  negb (existsb (isAt c.1 c.2) (take n tl)).

(** *** Concrete inputs of the examples *)

(** Only the space bar is held. *)
Definition pressSpace : KeyStates := fun k =>
  match k with
  | SDL_SCANCODE_SPACE => true
  | _ => false
  end.

(** A [rand()] stream that puts the first apple on (9,8), straight ahead of
    the starting snake, and then draws (3,8), the cell of its last
    segment. *)
Definition streamOntoTail (i : nat) : Z :=
  match i with
  | 0%nat => 9
  | 1%nat => 8
  | 2%nat => 3
  | _ => 8
  end.

(** A [rand()] stream that draws the cell (9,8) again and again. *)
Definition streamOfOneCell (i : nat) : Z := if Nat.even i then 9 else 8.

(** The game after the space bar started it. *)
Definition started (rand : nat -> Z) : SnakeGame :=
  OnEvent rand pressSpace initial.

(** A [rand()] stream that draws the cell (7,8) again and again: the first
    apple, which InitPlayingState places without a look at the snake, lies
    under the second segment of the starting snake. *)
Definition streamOfCell78 (i : nat) : Z := if Nat.even i then 7 else 8.

(** The game after a frame update, as it was when the update does not
    return. *)
Definition updated (rand : nat -> Z) (fuel : nat) (deltaTime : Z)
    (g : SnakeGame) : SnakeGame :=
  match OnUpdate rand fuel deltaTime g with
  | Done (g', _) => g'
  | _ => g
  end.

(** The game started under that stream, after the snake went one step up
    and one step to the left and the key for down was pressed: the head is
    on (7,7), and below it, on (7,8), lie the apple and the fourth
    segment. *)
Definition aboveOwnApple : SnakeGame :=
  OnEvent streamOfCell78 (only Down)
    (updated streamOfCell78 1 100
       (OnEvent streamOfCell78 (only Left)
          (updated streamOfCell78 1 16
             (OnEvent streamOfCell78 (only Up) (started streamOfCell78))))).

(** *** Vocabulary of the further properties *)

(** A cell of the grid. *)
Definition onGrid (c : Tail) : Prop :=
  0 <= tail_x c < GRID_WIDTH /\ 0 <= tail_y c < GRID_HEIGHT.

(** One of the four unit vectors. *)
Definition isUnitVector (v : Z * Z) : Prop := exists d, v = unitVector d.

End Snake.

(** ** The particle emitter (crispyOctoSporkEngine.h) *)

Module Particles.

(** [struct Particle] *)
Record Particle := mkParticle {
  p_x : Q;
  p_y : Q;
  p_xVelocity : Q;
  p_yVelocity : Q;
  totalLifeTime : Q;
  lifeTimeRemaining : Q;
  p_active : bool
}.

(** The value of a default-initialised [Particle]. *)
Definition noParticle : Particle :=
  {| p_x := 0; p_y := 0; p_xVelocity := 0; p_yVelocity := 0;
     totalLifeTime := 0; lifeTimeRemaining := 0; p_active := false |}.

(** [class ParticleEmitter]; the texture and the two size multipliers, which
    no method reads, are left out. *)
Record ParticleEmitter := mkEmitter {
  active : bool;
  newParticlesPerSecond : Z;
  startOfSecond : Q;
  particlesCreatedThisSecond : Q;
  x : Q;
  y : Q;
  lifeInMiliseconds : Q;
  speed : Q;
  particlePool : list Particle;
  currentParticlePoolIndex : nat;
  maxParticles : nat;
  randCalls : nat
}.

(** A call of [Texture::Render] with its alpha. *)
Record RenderCall := mkRender { r_x : Q; r_y : Q; r_alpha : Z }.

(** The constructor, called when [SDL_GetTicks()] is [ticks]. *)
Definition newEmitter (ticks : Z) (x y lifeInMiliseconds speed : Q)
    (newParticlesPerSecond : Z) (maxParticles : nat) : ParticleEmitter :=
  {| active := true;
     newParticlesPerSecond := newParticlesPerSecond;
     startOfSecond := inject_Z ticks;
     particlesCreatedThisSecond := 0;
     x := x; y := y;
     lifeInMiliseconds := lifeInMiliseconds;
     speed := speed;
     particlePool := replicate maxParticles noParticle;
     currentParticlePoolIndex := 0;
     maxParticles := maxParticles;
     randCalls := 0 |}.

(** The body of the loop over the pool in OnUpdate (lines 998-1010). *)
Definition updateParticle (deltaTime speed : Q) (p : Particle) : Particle :=
  if p_active p then
    let remaining := (lifeTimeRemaining p - deltaTime)%Q in
    if Qle_bool remaining 0 then
      {| p_x := p_x p; p_y := p_y p;
         p_xVelocity := p_xVelocity p; p_yVelocity := p_yVelocity p;
         totalLifeTime := totalLifeTime p;
         lifeTimeRemaining := remaining; p_active := false |}
    else
      {| p_x := (p_x p + p_xVelocity p * speed * deltaTime)%Q;
         p_y := (p_y p + p_yVelocity p * speed * deltaTime)%Q;
         p_xVelocity := p_xVelocity p; p_yVelocity := p_yVelocity p;
         totalLifeTime := totalLifeTime p;
         lifeTimeRemaining := remaining; p_active := true |}
  else p.

(** The loop over the pool in OnUpdate (lines 994-1011). *)
Definition updatePool (deltaTime speed : Q) (n : nat) (pool : list Particle)
  : outcome (list Particle) :=
  for_loop n (fun i pool =>
    p ← vec_at pool i;
    mret (<[i := updateParticle deltaTime speed p]> pool)) pool.

(** The alpha OnRender computes for a particle (lines 1023-1024): both
    lines convert a float to [int].  A total life time of 0 makes the
    quotient an infinity or a NaN, which converts like a value out of
    range. *)
Definition alphaOf (p : Particle) : Z :=
  let cross := toInt (lifeTimeRemaining p * 255) in
  if Qeq_bool (totalLifeTime p) 0 then INT_MIN
  else toInt (inject_Z cross / totalLifeTime p).

(** OnRender (lines 1015-1029): the render calls, in order. *)
Definition OnRender (e : ParticleEmitter) : outcome (list RenderCall) :=
  for_loop (maxParticles e) (fun i drawn =>
    p ← vec_at (particlePool e) i;
    mret (if p_active p
          then drawn ++ [mkRender (p_x p) (p_y p) (alphaOf p)]
          else drawn)) [].

Section WithRand.

Variable rand : nat -> Z.
Variable RAND_MAX : Z.

(** One round of the creation loop of OnUpdate (lines 974-989). *)
Definition createParticle (e : ParticleEmitter) : outcome ParticleEmitter :=
  _ ← vec_at (particlePool e) (currentParticlePoolIndex e);
  let particle :=
    {| p_active := true;
       lifeTimeRemaining := lifeInMiliseconds e;
       totalLifeTime := lifeInMiliseconds e;
       p_x := x e; p_y := y e;
       p_xVelocity :=
         (-1 + inject_Z (rand (randCalls e)) / (inject_Z RAND_MAX / 2))%Q;
       p_yVelocity :=
         (-1 + inject_Z (rand (S (randCalls e))) / (inject_Z RAND_MAX / 2))%Q
    |} in
  let index := S (currentParticlePoolIndex e) in
  let index :=
    if Z.of_nat (maxParticles e) - 2 <? Z.of_nat index then O else index in
  Done {| active := active e;
          newParticlesPerSecond := newParticlesPerSecond e;
          startOfSecond := startOfSecond e;
          particlesCreatedThisSecond := (particlesCreatedThisSecond e + 1)%Q;
          x := x e; y := y e;
          lifeInMiliseconds := lifeInMiliseconds e;
          speed := speed e;
          particlePool :=
            <[currentParticlePoolIndex e := particle]> (particlePool e);
          currentParticlePoolIndex := index;
          maxParticles := maxParticles e;
          randCalls := S (S (randCalls e)) |}.

Definition set_pool (pool : list Particle) (e : ParticleEmitter)
  : ParticleEmitter :=
  {| active := active e;
     newParticlesPerSecond := newParticlesPerSecond e;
     startOfSecond := startOfSecond e;
     particlesCreatedThisSecond := particlesCreatedThisSecond e;
     x := x e; y := y e;
     lifeInMiliseconds := lifeInMiliseconds e;
     speed := speed e;
     particlePool := pool;
     currentParticlePoolIndex := currentParticlePoolIndex e;
     maxParticles := maxParticles e;
     randCalls := randCalls e |}.

(** OnUpdate (lines 955-1014), called when [SDL_GetTicks()] is [ticks]. *)
Definition OnUpdate (deltaTime : Q) (ticks : Z) (e : ParticleEmitter)
  : outcome (ParticleEmitter * list RenderCall) :=
  if negb (active e) then Done (e, [])
  else
    let currentTime := inject_Z ticks in
    let elapsedTimeInSecond := (currentTime - startOfSecond e)%Q in
    let particlesThatShouldHaveBeenCreatedThisSecond :=
      toInt (elapsedTimeInSecond * inject_Z (newParticlesPerSecond e) / 1000) in
    e ← (if Qltb (particlesCreatedThisSecond e)
                 (inject_Z particlesThatShouldHaveBeenCreatedThisSecond)
         then
           let particlesToCreate :=
             toInt (inject_Z particlesThatShouldHaveBeenCreatedThisSecond
                    - particlesCreatedThisSecond e) in
           for_loop (Z.to_nat particlesToCreate)
                    (fun _ e => createParticle e) e
         else Done e);
    pool ← updatePool deltaTime (speed e) (maxParticles e) (particlePool e);
    let e := set_pool pool e in
    drawn ← OnRender e;
    mret (e, drawn).

(** A sequence of updates, each with its delta time and tick count. *)
Fixpoint runUpdates (inputs : list (Q * Z)) (e : ParticleEmitter)
  : outcome ParticleEmitter :=
  match inputs with
  | [] => Done e
  | (deltaTime, ticks) :: rest =>
      r ← OnUpdate deltaTime ticks e;
      runUpdates rest (r : ParticleEmitter * list RenderCall).1
  end.

End WithRand.

(** *** Vocabulary of the statements *)

Definition activeCount (pool : list Particle) : nat :=
  length (filter (fun p => p_active p = true) pool).


(** The render call OnRender makes for an active particle. *)
Definition renderOf (p : Particle) : RenderCall :=
  mkRender (p_x p) (p_y p) (alphaOf p).

(** The pool is the array of [maxParticles] slots the constructor made. *)
Definition poolSized (e : ParticleEmitter) : Prop :=
  length (particlePool e) = maxParticles e.

(** The index of the next slot is a slot of the pool. *)
Definition indexInPool (e : ParticleEmitter) : Prop :=
  poolSized e /\ (currentParticlePoolIndex e < maxParticles e)%nat.


(** 2^23 ms, a good two hours: up to this life time [255 * remaining] is an
    [int], also when the product is rounded to float32. *)
Definition maxLifeTime : Q := 8388608.


Definition slowFade : ParticleEmitter :=
  newEmitter 0 0 0 1000 (1 # 2) 1 1.


Definition zeroStream (i : nat) : Z := 0.


(** *** Vocabulary of the further properties *)

(** The number of particles OnUpdate wants created by tick [ticks]
    (lines 964-967). *)
Definition targetCount (ticks : Z) (e : ParticleEmitter) : Z :=
  toInt ((inject_Z ticks - startOfSecond e)
         * inject_Z (newParticlesPerSecond e) / 1000).

(** The creation phase of OnUpdate (lines 969-991). *)
Definition createDue (rand : nat -> Z) (RAND_MAX : Z) (ticks : Z)
    (e : ParticleEmitter) : outcome ParticleEmitter :=
  if Qltb (particlesCreatedThisSecond e) (inject_Z (targetCount ticks e))
  then for_loop (Z.to_nat (toInt (inject_Z (targetCount ticks e)
                                  - particlesCreatedThisSecond e)))
                (fun _ e => createParticle rand RAND_MAX e) e
  else Done e.

(** No active particle has more life left than its total life time, and
    none a total life time above [maxLifeTime]. *)
Definition lifeBounded (pool : list Particle) : Prop :=
  Forall (fun p => p_active p = true ->
                   (lifeTimeRemaining p <= totalLifeTime p)%Q /\
                   (totalLifeTime p <= maxLifeTime)%Q) pool.

(** The last of [n] slots has never been written and the next slot to be
    written is an earlier one. *)
Definition lastSlotFree (n : nat) (e : ParticleEmitter) : Prop :=
  maxParticles e = n /\ poolSized e /\
  (S (currentParticlePoolIndex e) < n)%nat /\
  particlePool e !! (n - 1)%nat = Some noParticle.

End Particles.

(** ** The Snake game, first variant (main.cpp, lines 1-311)

    The file holds the game twice.  The first variant has no score, no LOSE
    screen and no arrow keys; it plays a sound when an apple is eaten.  It
    shares the types, the scheduler, the wrap and the respawn search with the
    scored variant. *)

Module SnakeMinimal.

Import Snake.

(** What a frame sends out: render calls and [nice->PlaySound()]. *)
Inductive Output :=
| Draw (r : RenderCall)
| PlaySound.

Section WithRand.

Variable rand : nat -> Z.

Definition InitPlayingState (g : SnakeGame) : SnakeGame :=
  let startingX := 8 in
  let startingY := 8 in
  let xv := 1 in
  let len := 6%nat in
  {| state := state g;
     movesPerformedThisSecond := movesPerformedThisSecond g;
     secondAccumulator := secondAccumulator g;
     xVelocity := xv; yVelocity := 0;
     tail := (fun i => mkTail (startingX + (- xv * Z.of_nat i)) startingY)
               <$> seq 0 len;
     tailLength := len;
     apple_x := Z.rem (rand (randCalls g)) GRID_WIDTH;
     apple_y := Z.rem (rand (S (randCalls g))) GRID_HEIGHT;
     score := score g;
     randCalls := S (S (randCalls g)) |}.

Definition OnEventMenu (keys : KeyStates) (g : SnakeGame) : SnakeGame :=
  if keys SDL_SCANCODE_SPACE
  then InitPlayingState (set_state PLAYING g)
  else g.

Definition OnEventPlaying (keys : KeyStates) (g : SnakeGame) : SnakeGame :=
  if keys SDL_SCANCODE_W then set_velocity 0 (-1) g
  else if keys SDL_SCANCODE_S then set_velocity 0 1 g
  else if keys SDL_SCANCODE_A then set_velocity (-1) 0 g
  else if keys SDL_SCANCODE_D then set_velocity 1 0 g
  else if keys SDL_SCANCODE_ESCAPE then set_state MENU g
  else g.

Definition OnEvent (keys : KeyStates) (g : SnakeGame) : SnakeGame :=
  match state g with
  | MENU => OnEventMenu keys g
  | PLAYING => OnEventPlaying keys g
  | _ => g
  end.

(** The body of [if (moveThisFrameUpdate)] (lines 206-257): the game and
    whether the sound was played. *)
Definition simulationStep (fuel : nat) (g : SnakeGame)
  : outcome (SnakeGame * bool) :=
  head0 ← vec_at (tail g) 0;
  let newHeadX := wrap GRID_WIDTH (tail_x head0 + xVelocity g) in
  let newHeadY := wrap GRID_HEIGHT (tail_y head0 + yVelocity g) in
  let newHead := mkTail newHeadX newHeadY in
  let tl := newHead :: tail g in
  front ← vec_at tl 0;
  if (tail_x front =? apple_x g) && (tail_y front =? apple_y g) then
    spawn ← respawnApple rand fuel tl (tailLength g) (randCalls g);
    let '(ax, ay, calls) := (spawn : Z * Z * nat) in
    Done ({| state := state g;
             movesPerformedThisSecond := movesPerformedThisSecond g;
             secondAccumulator := secondAccumulator g;
             xVelocity := xVelocity g; yVelocity := yVelocity g;
             tail := tl; tailLength := S (tailLength g);
             apple_x := ax; apple_y := ay;
             score := score g; randCalls := calls |}, true)
  else
    Done ({| state := state g;
             movesPerformedThisSecond := movesPerformedThisSecond g;
             secondAccumulator := secondAccumulator g;
             xVelocity := xVelocity g; yVelocity := yVelocity g;
             tail := removelast tl; tailLength := tailLength g;
             apple_x := apple_x g; apple_y := apple_y g;
             score := score g; randCalls := randCalls g |}, false).

(** The render calls that end OnUpdatePlaying (lines 260-265). *)
Definition renderPlaying (g : SnakeGame) : outcome (list Output) :=
  segs ← for_loop (tailLength g) (fun i drawn =>
            seg ← vec_at (tail g) i;
            mret (drawn ++ [Draw (Render snake_texture
                                    (tail_x seg * GRID_SIZE)
                                    (tail_y seg * GRID_SIZE))]))
          [];
  mret (Draw (Render apple_texture (apple_x g * GRID_SIZE)
                     (apple_y g * GRID_SIZE)) :: segs).

Definition OnUpdatePlaying (fuel : nat) (deltaTime : Z) (g : SnakeGame)
  : outcome (SnakeGame * list Output) :=
  let '(moveThisFrameUpdate, moves, acc) :=
    moveScheduler deltaTime (movesPerformedThisSecond g) (secondAccumulator g) in
  let g := set_schedule moves acc g in
  r ← (if moveThisFrameUpdate then simulationStep fuel g else Done (g, false));
  let '(g, played) := (r : SnakeGame * bool) in
  drawn ← renderPlaying g;
  mret (g, (if played then [PlaySound] else []) ++ drawn).

Definition OnUpdate (fuel : nat) (deltaTime : Z) (g : SnakeGame)
  : outcome (SnakeGame * list Output) :=
  match state g with
  | MENU => Done (g, [Draw (Render menu_texture 0 0)])
  | PLAYING => OnUpdatePlaying fuel deltaTime g
  | _ => Done (g, [])
  end.

Inductive reachable : SnakeGame -> Prop :=
| reach_initial : reachable initial
| reach_event g keys : reachable g -> reachable (OnEvent keys g)
| reach_update g fuel deltaTime g' drawn :
    reachable g ->
    OnUpdate fuel deltaTime g = Done (g', drawn) ->
    reachable g'.

End WithRand.

(** A game of the scored variant with the state and the score of another. *)
Definition keeping (g g1 : SnakeGame) : SnakeGame :=
  {| state := state g;
     movesPerformedThisSecond := movesPerformedThisSecond g1;
     secondAccumulator := secondAccumulator g1;
     xVelocity := xVelocity g1; yVelocity := yVelocity g1;
     tail := tail g1; tailLength := tailLength g1;
     apple_x := apple_x g1; apple_y := apple_y g1;
     score := score g; randCalls := randCalls g1 |}.

End SnakeMinimal.

(** ** The frame rate counter (crispyOctoSporkEngine.h, lines 619-646)

    [SDL_GetTicks()] is a [Uint32]: the difference of two tick counts is
    taken modulo [2^32].  The two counters are [int]s that count frames of
    one second; they are [Z] here. *)

Module FrameRate.

Record FrameRate := mkFrameRate {
  timeStampOfBeginingOfSecond : Z;
  currentSecondsFrameCount : Z;
  currentFramesPerSecond : Z
}.

(** The constructor, called when [SDL_GetTicks()] is [ticks]. *)
Definition newFrameRate (ticks : Z) : FrameRate :=
  {| timeStampOfBeginingOfSecond := ticks;
     currentFramesPerSecond := 0;
     currentSecondsFrameCount := 0 |}.

Definition GetCurrentFramesPerSecond (fr : FrameRate) : Z :=
  currentFramesPerSecond fr.

(** OnUpdate, called when [SDL_GetTicks()] is [currentFrameTime]: the new
    counter and the value returned. *)
Definition OnUpdate (currentFrameTime : Z) (fr : FrameRate) : FrameRate * Z :=
  if 1000 <=? (currentFrameTime - timeStampOfBeginingOfSecond fr) mod 2 ^ 32
  then
    let count := currentSecondsFrameCount fr + 1 in
    ({| timeStampOfBeginingOfSecond := currentFrameTime;
        currentSecondsFrameCount := 0;
        currentFramesPerSecond := count |}, count)
  else
    ({| timeStampOfBeginingOfSecond := timeStampOfBeginingOfSecond fr;
        currentSecondsFrameCount := currentSecondsFrameCount fr + 1;
        currentFramesPerSecond := currentFramesPerSecond fr |}, 0).

(** The counter over the frames of the given tick counts, with the values
    returned. *)
Fixpoint runFrames (ticks : list Z) (fr : FrameRate) : FrameRate * list Z :=
  match ticks with
  | [] => (fr, [])
  | t :: rest =>
      let '(fr1, v) := OnUpdate t fr in
      let '(fr2, vs) := runFrames rest fr1 in
      (fr2, v :: vs)
  end.

(** The milliseconds from the start of the window to [t], as the code
    computes them. *)
Definition elapsed (fr : FrameRate) (t : Z) : Z :=
  (t - timeStampOfBeginingOfSecond fr) mod 2 ^ 32.

End FrameRate.

(** ** Circles (crispyOctoSporkEngine.h, lines 707-737)

    Positions and sizes are [float]s, taken as rationals; a colour is four
    bytes.  The calls made on the renderer are the output. *)

Module Shapes.

Record SDL_Color := mkColor { r : Z; g : Z; b : Z; a : Z }.

Definition COLOR_RED : SDL_Color := mkColor 255 0 0 255.
Definition COLOR_GREEN : SDL_Color := mkColor 0 255 0 255.
Definition COLOR_BLUE : SDL_Color := mkColor 0 0 255 255.
Definition COLOR_WHITE : SDL_Color := mkColor 255 255 255 255.

(** The calls of the SDL renderer, with the arguments in SDL's order: red,
    green, blue, alpha. *)
Inductive SdlCall :=
| SDL_SetRenderDrawColor (red green blue alpha : Z)
| SDL_RenderDrawPoint (px py : Z).

Record Circle := mkCircle {
  circle_x : Q; circle_y : Q; radius : Q; circle_color : SDL_Color
}.

(** The values an [int] counter takes in [for (int w = 0; w < bound; w++)]
    with a [float] bound. *)
Definition countTo (bound : Q) : list Z :=
  Z.of_nat <$> seq 0 (Z.to_nat (Qceiling bound)).

(** The body of the inner loop of Circle::OnRender (lines 728-733). *)
Definition circlePoint (s : Circle) (w h : Z) : list SdlCall :=
  let dx := Qtrunc (radius s - inject_Z w) in
  let dy := Qtrunc (radius s - inject_Z h) in
  if Qle_bool (inject_Z (dx * dx + dy * dy)) (radius s * radius s)
  then [SDL_RenderDrawPoint (Qtrunc (circle_x s + inject_Z dx))
                            (Qtrunc (circle_y s + inject_Z dy))]
  else [].

(** Circle::OnRender (lines 721-737). *)
Definition Circle_OnRender (s : Circle) : list SdlCall :=
  SDL_SetRenderDrawColor (r (circle_color s)) (b (circle_color s))
                         (g (circle_color s)) (a (circle_color s))
  :: flat_map (fun w => flat_map (fun h => circlePoint s w h)
                                 (countTo (radius s * 2)))
              (countTo (radius s * 2)).

(** A circle with whole coordinates and radius. *)
Definition wholeCircle (cx cy n : Z) (c : SDL_Color) : Circle :=
  mkCircle (inject_Z cx) (inject_Z cy) (inject_Z n) c.

End Shapes.

(** ** Textures (crispyOctoSporkEngine.h, lines 795-911)

    SDL textures, surfaces and fonts are handles; what SDL answers to a
    call that can fail (a handle, or NULL as [None]) is an input of the
    model, and the calls made are the output. *)

Module Textures.

Inductive SdlCall :=
| IMG_LoadTexture (result : option nat)
| SDL_QueryTexture (t : nat)
| TTF_RenderText_Solid (font : nat) (result : option nat)
| SDL_CreateTextureFromSurface (surface : nat) (result : option nat)
| SDL_FreeSurface (surface : nat)
| SDL_DestroyTexture (t : nat)
| SDL_SetTextureAlphaMod (t : option nat) (alpha : Z)
| SDL_RenderCopyExF (t : option nat) (x y w h : Q).

(** [class Texture]; the renderer and the font size are left out. *)
Record Texture := mkTexture {
  texture : option nat;
  width : Z;
  height : Z;
  font : option nat
}.

(** The constructor; [font] is what [TTF_OpenFont] gave, or NULL when no
    font file was named. *)
Definition newTexture (font : option nat) : Texture :=
  {| texture := None; width := 0; height := 0; font := font |}.

(** Free (lines 884-893). *)
Definition Free (t : Texture) : Texture * list SdlCall :=
  match texture t with
  | Some h =>
      ({| texture := None; width := 0; height := 0; font := font t |},
       [SDL_DestroyTexture h])
  | None => (t, [])
  end.

(** LoadTextureFromFile (lines 833-848); [loaded] is the answer of
    [IMG_LoadTexture] with the size [SDL_QueryTexture] reports. *)
Definition LoadTextureFromFile (loaded : option (nat * Z * Z)) (t : Texture)
  : Texture * list SdlCall * bool :=
  let '(t, calls) := Free t in
  match loaded with
  | None =>
      ({| texture := None; width := width t; height := height t;
          font := font t |},
       calls ++ [IMG_LoadTexture None], false)
  | Some (h, w, ht) =>
      ({| texture := Some h; width := w; height := ht; font := font t |},
       calls ++ [IMG_LoadTexture (Some h); SDL_QueryTexture h], true)
  end.

(** LoadFromRenderedText (lines 850-882); [surface] is the answer of
    [TTF_RenderText_Solid] with the size of the surface, [created] the
    answer of [SDL_CreateTextureFromSurface]. *)
Definition LoadFromRenderedText (surface : option (nat * Z * Z))
    (created : option nat) (t : Texture) : Texture * list SdlCall * bool :=
  let '(t, calls) := Free t in
  match font t with
  | None => (t, calls, false)
  | Some f =>
      match surface with
      | None => (t, calls ++ [TTF_RenderText_Solid f None], false)
      | Some (s, w, ht) =>
          match created with
          | None =>
              ({| texture := None; width := width t; height := height t;
                  font := font t |},
               calls ++ [TTF_RenderText_Solid f (Some s);
                         SDL_CreateTextureFromSurface s None], false)
          | Some h =>
              ({| texture := Some h; width := w; height := ht;
                  font := font t |},
               calls ++ [TTF_RenderText_Solid f (Some s);
                         SDL_CreateTextureFromSurface s (Some h);
                         SDL_FreeSurface s], true)
          end
      end
  end.

(** Render (lines 895-907); [clip] is the size of the clip rectangle, if
    one is given. *)
Definition Render (x y : Q) (clip : option (Z * Z)) (alpha : Z) (t : Texture)
  : list SdlCall :=
  let '(w, h) := match clip with
                 | Some (cw, ch) => (cw, ch)
                 | None => (width t, height t)
                 end in
  [SDL_SetTextureAlphaMod (texture t) alpha;
   SDL_RenderCopyExF (texture t) x y (inject_Z w) (inject_Z h)].

(** The operations on a texture, with SDL's answers. *)
Inductive Operation :=
| DoFree
| DoLoadTextureFromFile (loaded : option (nat * Z * Z))
| DoLoadFromRenderedText (surface : option (nat * Z * Z)) (created : option nat).

Definition perform (op : Operation) (t : Texture) : Texture * list SdlCall :=
  match op with
  | DoFree => Free t
  | DoLoadTextureFromFile loaded => (LoadTextureFromFile loaded t).1
  | DoLoadFromRenderedText surface created =>
      (LoadFromRenderedText surface created t).1
  end.

Fixpoint performAll (ops : list Operation) (t : Texture)
  : Texture * list SdlCall :=
  match ops with
  | [] => (t, [])
  | op :: rest =>
      let '(t1, calls) := perform op t in
      let '(t2, calls') := performAll rest t1 in
      (t2, calls ++ calls')
  end.

(** Counts over the calls: textures made and destroyed, surfaces made and
    freed, and creations of a texture from a surface that failed. *)
Definition countCalls (f : SdlCall -> bool) (calls : list SdlCall) : nat :=
  length (List.filter f calls).

Definition texturesMade : list SdlCall -> nat :=
  countCalls (fun c => match c with
                       | IMG_LoadTexture (Some _)
                       | SDL_CreateTextureFromSurface _ (Some _) => true
                       | _ => false
                       end).

Definition texturesDestroyed : list SdlCall -> nat :=
  countCalls (fun c => match c with
                       | SDL_DestroyTexture _ => true
                       | _ => false
                       end).

Definition surfacesMade : list SdlCall -> nat :=
  countCalls (fun c => match c with
                       | TTF_RenderText_Solid _ (Some _) => true
                       | _ => false
                       end).

Definition surfacesFreed : list SdlCall -> nat :=
  countCalls (fun c => match c with
                       | SDL_FreeSurface _ => true
                       | _ => false
                       end).

Definition failedCreations : list SdlCall -> nat :=
  countCalls (fun c => match c with
                       | SDL_CreateTextureFromSurface _ None => true
                       | _ => false
                       end).

Definition held (t : Texture) : nat :=
  match texture t with
  | Some _ => 1%nat
  | None => 0%nat
  end.

End Textures.

(** * Checked accesses *)

Lemma vec_at_Done {A} (v : list A) (i : nat) (a : A) :
  v !! i = Some a -> vec_at v i = Done a.
Proof. unfold vec_at. now intros ->. Qed.

(** * Properties of the Snake game *)

Module SnakeFacts.

Import Snake.

(** ** The scan and render loops *)

Lemma isAt_true px py seg : isAt px py seg = true <-> seg = mkTail px py.
Proof.
  unfold isAt. destruct seg as [sx sy]. cbn.
  rewrite andb_true_iff, !Z.eqb_eq. split.
  - now intros [-> ->].
  - intros E. now inversion E.
Qed.

Lemma existsb_isAt px py (l : list Tail) :
  existsb (isAt px py) l = true <-> In (mkTail px py) l.
Proof.
  rewrite existsb_exists. split.
  - intros (seg & Hin & Hat). apply isAt_true in Hat. now subst.
  - intros Hin. exists (mkTail px py). split; [assumption|now apply isAt_true].
Qed.

Lemma scan_from tl px py n : forall i flag,
  (i + n <= length tl)%nat ->
  for_from i n (fun i flag =>
    seg ← vec_at tl i;
    mret (if (tail_x seg =? px) && (tail_y seg =? py) then true else flag)) flag
  = Done (flag || existsb (isAt px py) (take n (drop i tl))).
Proof.
  induction n as [|n IH]; intros i flag Hlen; cbn [for_from].
  - now rewrite take_0, orb_false_r.
  - destruct (lookup_lt_is_Some_2 tl i) as [seg Hseg]; [lia|].
    rewrite (vec_at_Done _ _ _ Hseg). cbn.
    rewrite IH by lia.
    rewrite (drop_S _ _ _ Hseg). cbn. unfold isAt at 2.
    destruct ((tail_x seg =? px) && (tail_y seg =? py)), flag; reflexivity.
Qed.

Lemma segmentAt_in_bounds tl n px py :
  (n <= length tl)%nat ->
  segmentAt tl n px py = Done (existsb (isAt px py) (take n tl)).
Proof.
  intros Hlen. unfold segmentAt, for_loop.
  rewrite scan_from by lia. now rewrite drop_0.
Qed.

Lemma snake_render_from (tl : list Tail) n : forall i drawn,
  (i + n <= length tl)%nat ->
  for_from i n (fun i drawn =>
    seg ← vec_at tl i;
    mret (drawn ++ [Render snake_texture (tail_x seg * GRID_SIZE)
                                         (tail_y seg * GRID_SIZE)])) drawn
  = Done (drawn ++ ((fun seg => Render snake_texture (tail_x seg * GRID_SIZE)
                                        (tail_y seg * GRID_SIZE))
                    <$> take n (drop i tl))).
Proof.
  induction n as [|n IH]; intros i drawn Hlen; cbn [for_from].
  - now rewrite take_0, app_nil_r.
  - destruct (lookup_lt_is_Some_2 tl i) as [seg Hseg]; [lia|].
    rewrite (vec_at_Done _ _ _ Hseg). cbn.
    rewrite IH by lia.
    rewrite (drop_S _ _ _ Hseg). cbn. now rewrite <- app_assoc.
Qed.

Lemma renderPlaying_in_bounds g :
  length (tail g) = tailLength g -> renderPlaying g = Done (frame g).
Proof.
  intros Hlen. unfold renderPlaying, for_loop.
  rewrite snake_render_from by lia. cbn.
  rewrite drop_0, <- Hlen, firstn_all. reflexivity.
Qed.

(** ** The move scheduler in integers *)

Lemma due_test m a :
  Qltb (inject_Z m) (inject_Z a * movesPerSecond / 1000) = (100 * m <? a).
Proof.
  unfold Qltb.
  destruct (Z.ltb_spec (100 * m) a) as [H|H].
  - apply negb_true_iff. apply not_true_is_false. intros E.
    apply Qle_bool_iff in E. unfold Qle in E. cbn in E. lia.
  - apply negb_false_iff. apply Qle_bool_iff. unfold Qle. cbn. lia.
Qed.

Lemma moveScheduler_Z dt m a :
  moveScheduler dt m a =
    if 1000 <=? a + dt then (false, 0, 0)
    else if 100 * m <? a + dt then (true, m + 1, a + dt)
    else (false, m, a + dt).
Proof.
  unfold moveScheduler.
  destruct (1000 <=? a + dt); rewrite due_test; reflexivity.
Qed.


Lemma Qltb_lt (a b : Q) : Qltb a b = true <-> (a < b)%Q.
Proof.
  unfold Qltb. rewrite negb_true_iff, <- not_true_iff_false, Qle_bool_iff.
  split; [apply Qnot_le_lt | apply Qlt_not_le].
Qed.

Lemma lt_Qceiling (m : Z) (q : Q) : m < Qceiling q <-> (inject_Z m < q)%Q.
Proof.
  split; intros H.
  - apply Qle_lt_trans with (inject_Z (Qceiling q - 1)).
    + rewrite <- Zle_Qle. lia.
    + apply Qceiling_lt.
  - rewrite Zlt_Qlt. eapply Qlt_le_trans; [exact H | apply Qle_ceiling].
Qed.

Lemma simulationStep_keeps_schedule rand fuel g g' :
  simulationStep rand fuel g = Done g' ->
  movesPerformedThisSecond g' = movesPerformedThisSecond g /\
  secondAccumulator g' = secondAccumulator g.
Proof.
  unfold simulationStep. intros Hrun.
  repeat match type of Hrun with
         | context [mbind _ ?m] =>
             destruct m; cbn [mbind outcome_bind] in Hrun; try discriminate
         | context [if ?b then _ else _] => destruct b
         | context [match ?t with _ => _ end] => is_var t; destruct t
         end;
    inversion Hrun; subst; cbn; now split.
Qed.

(** C3 fails as written: 16 ms into a fresh window the code signals a step
    (0 < 0.16), the floor of the specification does not (0 < 0 fails). *)
Lemma C3_floor_counterexample :
  moveScheduler 16 0 0 = (true, 1, 16) /\
  moveScheduler_floor 16 0 0 = (false, 0, 16) /\
  ~ (0 < Qfloor (inject_Z 16 * movesPerSecond / 1000)).
Proof. repeat split; vm_compute; congruence. Qed.

(** C3, amended: the scheduler adds the delta time to the accumulator,
    resets accumulator and count at 1000 ms or more, and then signals one
    step, incrementing the count, if and only if the count is less than
    [accumulator * movesPerSecond / 1000] itself, not rounded down (that
    is, less than its ceiling); the flag is a boolean, so at most one step
    is due in a frame. *)
Theorem C3_move_scheduler (deltaTime moves acc : Z) :
  let acc1 := acc + deltaTime in
  let acc2 := if 1000 <=? acc1 then 0 else acc1 in
  let moves2 := if 1000 <=? acc1 then 0 else moves in
  let target := (inject_Z acc2 * movesPerSecond / 1000)%Q in
  exists due : bool,
    moveScheduler deltaTime moves acc
      = (due, if due then moves2 + 1 else moves2, acc2) /\
    (due = true <-> (inject_Z moves2 < target)%Q) /\
    (due = true <-> moves2 < Qceiling target) /\
    forall rand fuel g g' drawn,
      movesPerformedThisSecond g = moves -> secondAccumulator g = acc ->
      OnUpdatePlaying rand fuel deltaTime g = Done (g', drawn) ->
      movesPerformedThisSecond g' = (if due then moves2 + 1 else moves2) /\
      secondAccumulator g' = acc2 /\
      (due = false -> tail g' = tail g /\ tailLength g' = tailLength g).
Proof.
  intros acc1 acc2 moves2 target.
  exists (Qltb (inject_Z moves2) target).
  assert (moveScheduler deltaTime moves acc
          = (Qltb (inject_Z moves2) target,
             if Qltb (inject_Z moves2) target then moves2 + 1 else moves2,
             acc2)) as Hsched.
  { unfold moveScheduler. fold acc1. subst acc2 moves2 target.
    destruct (1000 <=? acc1);
      match goal with |- context [Qltb ?a ?b] => destruct (Qltb a b) end;
      reflexivity. }
  split; [exact Hsched|]. split; [apply Qltb_lt|].
  split; [rewrite lt_Qceiling; apply Qltb_lt|].
  intros rand fuel g g' drawn Hm Ha Hrun.
  unfold OnUpdatePlaying in Hrun. rewrite Hm, Ha, Hsched in Hrun.
  destruct (Qltb (inject_Z moves2) target).
  - destruct (simulationStep _ _ _) as [g1| |] eqn:Hstep;
      cbn [mbind outcome_bind] in Hrun; try discriminate.
    destruct (renderPlaying g1); cbn in Hrun; inversion Hrun; subst.
    destruct (simulationStep_keeps_schedule _ _ _ _ Hstep) as [-> ->].
    repeat split; discriminate.
  - cbn [mbind outcome_bind] in Hrun.
    destruct (renderPlaying _); cbn in Hrun; inversion Hrun; subst.
    repeat split.
Qed.

(** ** A window of frames *)

Lemma runFrames_window deltas : forall moves acc,
  Forall (fun d => 0 < d) deltas ->
  sumZ deltas = 1000 - acc ->
  0 <= acc < 1000 -> 0 <= moves -> 100 * moves <= acc + 99 ->
  exists steps : nat,
    runFrames deltas moves acc = (steps, 0, 0) /\
    moves + Z.of_nat steps <= 10 /\
    (Forall (fun d => d <= 100) deltas -> List.last deltas 0 < 100 ->
     acc <= 100 * moves -> moves + Z.of_nat steps = 10).
Proof.
  induction deltas as [|d rest IH]; intros moves acc Hpos Hsum Hacc Hm Hinv.
  - cbn in Hsum. lia.
  - apply Forall_cons in Hpos as [Hd Hrest].
    cbn [sumZ foldr] in Hsum. fold (sumZ rest) in Hsum.
    cbn [runFrames]. rewrite moveScheduler_Z.
    destruct rest as [|d' rest'].
    + cbn in Hsum. assert (acc + d = 1000) as E by lia.
      rewrite E. cbn. exists O. split; [reflexivity|]. split; [lia|].
      intros _ Hlast Hexact. cbn in Hlast. lia.
    + assert (0 < sumZ (d' :: rest')) as Hrestpos.
      { apply Forall_cons in Hrest as [Hd' Hrest'].
        cbn [sumZ foldr]. fold (sumZ rest').
        assert (0 <= sumZ rest'); [|lia].
        clear -Hrest'. induction Hrest' as [|z l Hz _ IHl]; cbn; [lia|].
        fold (sumZ l). lia. }
      destruct (Z.leb_spec 1000 (acc + d)) as [Hge|Hlt]; [lia|].
      destruct (Z.ltb_spec (100 * moves) (acc + d)) as [Hdue|Hnot].
      * destruct (IH (moves + 1) (acc + d)) as (steps & Hrun & Hle & Hex);
          try assumption; try lia.
        rewrite Hrun. exists (S steps). split; [reflexivity|]. split; [lia|].
        intros Hall Hlast Hexact.
        apply Forall_cons in Hall as [Hd100 Hall].
        specialize (Hex Hall Hlast). lia.
      * destruct (IH moves (acc + d)) as (steps & Hrun & Hle & Hex);
          try assumption; try lia.
        rewrite Hrun. exists steps. split; [reflexivity|]. split; [lia|].
        intros Hall Hlast Hexact.
        apply Forall_cons in Hall as [Hd100 Hall].
        specialize (Hex Hall Hlast). lia.
Qed.

(** C4 fails as written: two frames of 500 ms make a window of exactly
    1000 ms in which a single step is signalled, not ten. *)
Lemma C4_two_frames_counterexample :
  Forall (fun d => 0 < d) [500; 500] /\ sumZ [500; 500] = 1000 /\
  runFrames [500; 500] 0 0 = (1%nat, 0, 0) /\
  ~ (inject_Z (Z.of_nat 1) == movesPerSecond)%Q.
Proof.
  split; [repeat constructor|]. repeat split. vm_compute. congruence.
Qed.

(** C4, amended: over positive delta times that sum to exactly 1000 ms,
    from a fresh window, the scheduler signals at most [movesPerSecond]
    steps, and exactly [movesPerSecond] when no delta exceeds
    [1000 / movesPerSecond] ms and the last one is shorter than that; the
    frame that reaches 1000 ms leaves the count and the accumulator at 0. *)
Theorem C4_window_steps (deltas : list Z) :
  Forall (fun d => 0 < d) deltas ->
  sumZ deltas = 1000 ->
  exists steps : nat,
    runFrames deltas 0 0 = (steps, 0, 0) /\
    (inject_Z (Z.of_nat steps) <= movesPerSecond)%Q /\
    (Forall (fun d => (inject_Z d <= 1000 / movesPerSecond)%Q) deltas ->
     (inject_Z (List.last deltas 0%Z) < 1000 / movesPerSecond)%Q ->
     (inject_Z (Z.of_nat steps) == movesPerSecond)%Q).
Proof.
  intros Hpos Hsum.
  destruct (runFrames_window deltas 0 0) as (steps & Hrun & Hle & Hex);
    try assumption; try lia.
  exists steps. split; [assumption|]. split.
  - unfold movesPerSecond. change 10%Q with (inject_Z 10).
    rewrite <- Zle_Qle. lia.
  - intros Hall Hlast.
    unfold movesPerSecond. change 10%Q with (inject_Z 10).
    rewrite inject_Z_injective. apply Hex; try lia.
    + eapply Forall_impl; [exact Hall|]. cbn. intros d Hd.
      unfold Qle in Hd. cbn in Hd. lia.
    + unfold Qlt in Hlast. cbn in Hlast. lia.
Qed.

Lemma C4_window_steps_witness :
  exists steps : nat,
    runFrames (repeat 50 20) 0 0 = (steps, 0, 0) /\
    (inject_Z (Z.of_nat steps) == movesPerSecond)%Q.
Proof.
  destruct (C4_window_steps (repeat 50 20)) as (steps & Hrun & _ & Hexact).
  - cbn. repeat constructor.
  - reflexivity.
  - exists steps. split; [exact Hrun|]. apply Hexact.
    + cbn. repeat constructor; vm_compute; congruence.
    + vm_compute. reflexivity.
Defined.

(** ** The wrap of the new head *)

(** C6: for a grid dimension of at least one cell, the wrap sends every
    value above [gridDimension - 1] to 0 and every negative value to
    [gridDimension - 1], and leaves the values of the grid unchanged; so a
    step off the right or bottom edge lands on column or row 0, a step off
    the left or top edge on the last one, the result is always on the grid,
    and wrapping twice is wrapping once. *)
Theorem C6_wrap (gridDimension v : Z) :
  0 < gridDimension ->
  (gridDimension - 1 < v -> wrap gridDimension v = 0) /\
  (v < 0 -> wrap gridDimension v = gridDimension - 1) /\
  (0 <= v < gridDimension -> wrap gridDimension v = v) /\
  wrap gridDimension ((gridDimension - 1) + 1) = 0 /\
  wrap gridDimension (0 + -1) = gridDimension - 1 /\
  0 <= wrap gridDimension v < gridDimension /\
  wrap gridDimension (wrap gridDimension v) = wrap gridDimension v.
Proof.
  intros Hdim. unfold wrap.
  repeat match goal with
         | |- _ /\ _ => split
         | |- _ -> _ => intro
         end;
    repeat match goal with
           | |- context [?a <? ?b] =>
               lazymatch a with
               | context [if _ then _ else _] => fail
               | _ => destruct (Z.ltb_spec a b)
               end
           end; lia.
Qed.

Lemma C6_wrap_witness :
  wrap GRID_WIDTH 20 = 0 /\ wrap GRID_WIDTH (-1) = 19 /\
  wrap GRID_HEIGHT 15 = 0 /\ wrap GRID_HEIGHT (-1) = 14 /\
  wrap GRID_WIDTH (wrap GRID_WIDTH 20) = wrap GRID_WIDTH 20.
Proof.
  assert (0 < GRID_WIDTH) as Hw by (vm_compute; reflexivity).
  assert (0 < GRID_HEIGHT) as Hh by (vm_compute; reflexivity).
  destruct (C6_wrap GRID_WIDTH 20 Hw) as (Hhigh & _ & _ & _ & _ & _ & Hidem).
  destruct (C6_wrap GRID_WIDTH (-1) Hw) as (_ & Hlow & _).
  destruct (C6_wrap GRID_HEIGHT 15 Hh) as (Hhigh' & _).
  destruct (C6_wrap GRID_HEIGHT (-1) Hh) as (_ & Hlow' & _).
  split; [apply Hhigh; vm_compute; reflexivity|].
  split; [apply Hlow; vm_compute; reflexivity|].
  split; [apply Hhigh'; vm_compute; reflexivity|].
  split; [apply Hlow'; vm_compute; reflexivity|].
  exact Hidem.
Defined.

(** ** Direction keys *)

Lemma firstHeld_cases keys :
  firstHeld keys =
    if held keys Up then Some Up
    else if held keys Down then Some Down
    else if held keys Left then Some Left
    else if held keys Right then Some Right
    else None.
Proof. reflexivity. Qed.

(** C8: in OnEventPlaying the first direction held, in the order up, down,
    left, right, is the only one that counts (the outcome is that of this
    direction's key held alone); if it is the opposite of the current
    velocity the velocity stays as it is, if it is perpendicular to the
    current velocity the velocity becomes its unit vector; with no direction
    held the velocity stays.  From (1,0): left is rejected, up and down are
    accepted. *)
Theorem C8_direction_change (keys : KeyStates) (g : SnakeGame) :
  match firstHeld keys with
  | Some d =>
      OnEventPlaying keys g = OnEventPlaying (only d) g /\
      (velocity g = opposite (unitVector d) ->
       velocity (OnEventPlaying keys g) = velocity g) /\
      (perpendicular (velocity g) (unitVector d) ->
       velocity (OnEventPlaying keys g) = unitVector d) /\
      (velocity g = (1, 0) ->
       velocity (OnEventPlaying keys g) =
         match d with
         | Left => (1, 0)
         | _ => unitVector d
         end)
  | None => velocity (OnEventPlaying keys g) = velocity g
  end.
Proof.
  rewrite firstHeld_cases. unfold OnEventPlaying, held.
  destruct g as [st mv acc xv yv tl n ax ay sc rc].
  unfold velocity, opposite, perpendicular. cbn.
  destruct (keys SDL_SCANCODE_W || keys SDL_SCANCODE_UP);
    [|destruct (keys SDL_SCANCODE_S || keys SDL_SCANCODE_DOWN);
      [|destruct (keys SDL_SCANCODE_A || keys SDL_SCANCODE_LEFT);
        [|destruct (keys SDL_SCANCODE_D || keys SDL_SCANCODE_RIGHT)]]];
    cbn.
  5: { now destruct (keys SDL_SCANCODE_ESCAPE). }
  all: repeat match goal with
         | |- _ /\ _ => split
         | |- _ = _ -> _ => let E := fresh in intro E; inversion E; subst; clear E
         | |- _ -> _ => intro
         end;
       repeat match goal with
         | |- context [?a =? ?b] => destruct (Z.eqb_spec a b)
         end; cbn in *; try reflexivity; try congruence;
       try (f_equal; lia).
Qed.


(** ** One simulation step *)

Section Step.

Variable rand : nat -> Z.

Lemma newHead_cons g h :
  newHead g = Some h ->
  exists h0 rest,
    tail g = h0 :: rest /\
    h = mkTail (wrap GRID_WIDTH (tail_x h0 + xVelocity g))
               (wrap GRID_HEIGHT (tail_y h0 + yVelocity g)).
Proof.
  unfold newHead. destruct (tail g) as [|h0 rest]; cbn; [discriminate|].
  intros E. inversion E. now exists h0, rest.
Qed.

Lemma newHead_some g : tail g <> [] -> exists h, newHead g = Some h.
Proof.
  unfold newHead. destruct (tail g) as [|h0 rest]; [congruence|].
  intros _. cbn. eauto.
Qed.

Lemma appleCell_isAt g h :
  isAt (apple_x g) (apple_y g) h = true <-> h = appleCell g.
Proof. apply isAt_true. Qed.

Lemma simulationStep_move fuel g h :
  newHead g = Some h ->
  (tailLength g <= length (tail g))%nat ->
  isAt (apple_x g) (apple_y g) h = false ->
  simulationStep rand fuel g = Done (movedGame g h).
Proof.
  intros Hh Hlen Happle.
  destruct (newHead_cons g h Hh) as (h0 & rest & Htl & ->).
  unfold simulationStep, movedGame, stepState.
  rewrite Htl in *. cbn [vec_at lookup list_lookup mbind outcome_bind].
  rewrite segmentAt_in_bounds by assumption. cbn -[wrap existsb take removelast].
  unfold isAt in Happle. cbn [tail_x tail_y] in Happle. rewrite Happle.
  reflexivity.
Qed.

Lemma simulationStep_eat fuel g h :
  newHead g = Some h ->
  (tailLength g <= length (tail g))%nat ->
  isAt (apple_x g) (apple_y g) h = true ->
  simulationStep rand fuel g =
    match respawnApple rand fuel (h :: tail g) (tailLength g) (randCalls g) with
    | Done (ax, ay, calls) => Done (grownGame g h ax ay calls)
    | OutOfBounds => OutOfBounds
    | Diverges => Diverges
    end.
Proof.
  intros Hh Hlen Happle.
  destruct (newHead_cons g h Hh) as (h0 & rest & Htl & ->).
  unfold simulationStep, grownGame, stepState.
  rewrite Htl in *. cbn [vec_at lookup list_lookup mbind outcome_bind].
  rewrite segmentAt_in_bounds by assumption. cbn -[wrap existsb take respawnApple].
  unfold isAt in Happle. cbn [tail_x tail_y] in Happle. rewrite Happle.
  destruct (respawnApple _ _ _ _ _) as [[[ax ay] calls]| |]; reflexivity.
Qed.

(** ** The respawn search *)

Lemma sample_next calls k :
  sample rand (S (S calls)) k = sample rand calls (S k).
Proof.
  unfold sample.
  replace (S (S calls) + 2 * k)%nat with (calls + 2 * S k)%nat by lia.
  reflexivity.
Qed.

Lemma respawnApple_S fuel tl n calls :
  (n <= length tl)%nat ->
  respawnApple rand (S fuel) tl n calls =
    if freeCell tl n (sample rand calls 0)
    then Done ((sample rand calls 0).1, (sample rand calls 0).2, S (S calls))
    else respawnApple rand fuel tl n (S (S calls)).
Proof.
  intros Hlen. cbn [respawnApple].
  rewrite segmentAt_in_bounds by assumption.
  unfold freeCell, sample. cbn [fst snd mbind outcome_bind].
  replace (calls + 2 * 0)%nat with calls by lia. reflexivity.
Qed.

(** The search returns the first free cell of the stream, and runs out of
    fuel only while every cell drawn is taken. *)
Lemma respawnApple_result tl n :
  (n <= length tl)%nat ->
  forall fuel calls,
    match respawnApple rand fuel tl n calls with
    | Done (ax, ay, calls') =>
        exists k, (k < fuel)%nat /\ (ax, ay) = sample rand calls k /\
                  freeCell tl n (ax, ay) = true /\
                  calls' = (calls + 2 * S k)%nat /\
                  forall j, (j < k)%nat ->
                            freeCell tl n (sample rand calls j) = false
    | OutOfBounds => False
    | Diverges =>
        forall j, (j < fuel)%nat -> freeCell tl n (sample rand calls j) = false
    end.
Proof.
  intros Hlen. induction fuel as [|fuel IH]; intros calls.
  - cbn. intros j Hj. lia.
  - rewrite respawnApple_S by assumption.
    destruct (freeCell tl n (sample rand calls 0)) eqn:Hfree.
    + exists O. repeat split; try lia.
      now destruct (sample rand calls 0).
    + specialize (IH (S (S calls))).
      destruct (respawnApple rand fuel tl n (S (S calls)))
        as [[[ax ay] calls']| |].
      * destruct IH as (k & Hk & Hcell & Hok & Hcalls & Hbefore).
        exists (S k). rewrite <- sample_next.
        repeat split; try assumption; try lia.
        intros [|j] Hj; [assumption|].
        rewrite <- sample_next. apply Hbefore. lia.
      * assumption.
      * intros [|j] Hj; [assumption|].
        rewrite <- sample_next. apply IH. lia.
Qed.

Lemma respawnApple_terminates tl n calls k :
  (n <= length tl)%nat ->
  freeCell tl n (sample rand calls k) = true ->
  forall fuel, (k < fuel)%nat ->
    exists r, respawnApple rand fuel tl n calls = Done r.
Proof.
  intros Hlen Hfree fuel Hfuel.
  pose proof (respawnApple_result tl n Hlen fuel calls) as H.
  destruct (respawnApple rand fuel tl n calls) as [r| |].
  - now exists r.
  - contradiction.
  - rewrite (H k Hfuel) in Hfree. discriminate.
Qed.


(** ** One frame of PLAYING *)

Lemma removelast_cons_length {A} (a : A) (l : list A) :
  length (removelast (a :: l)) = length l.
Proof.
  revert a. induction l as [|b l IH]; intros a; [reflexivity|].
  change (removelast (a :: b :: l)) with (a :: removelast (b :: l)).
  cbn [length]. now rewrite IH.
Qed.

Lemma removelast_cons_cons {A} (a : A) (l : list A) :
  l <> [] -> removelast (a :: l) = a :: removelast l.
Proof. destruct l; [congruence|reflexivity]. Qed.

Lemma stepDue_scheduler deltaTime g :
  moveScheduler deltaTime (movesPerformedThisSecond g) (secondAccumulator g)
  = (stepDue deltaTime g, movesPerformedThisSecond (scheduled deltaTime g),
     secondAccumulator (scheduled deltaTime g)).
Proof.
  unfold stepDue, scheduled.
  now destruct (moveScheduler _ _ _) as [[due m] a].
Qed.

Lemma OnUpdatePlaying_unfold fuel deltaTime g :
  OnUpdatePlaying rand fuel deltaTime g =
    g1 ← (if stepDue deltaTime g
          then simulationStep rand fuel (scheduled deltaTime g)
          else Done (scheduled deltaTime g));
    drawn ← renderPlaying g1;
    mret (g1, drawn).
Proof.
  unfold OnUpdatePlaying, stepDue, scheduled.
  now destruct (moveScheduler _ _ _) as [[due m] a].
Qed.

Lemma frame_idle fuel deltaTime g :
  length (tail g) = tailLength g ->
  stepDue deltaTime g = false ->
  OnUpdatePlaying rand fuel deltaTime g
  = Done (scheduled deltaTime g, frame (scheduled deltaTime g)).
Proof.
  intros Hlen Hdue. rewrite OnUpdatePlaying_unfold, Hdue.
  cbn [mbind outcome_bind].
  now rewrite renderPlaying_in_bounds.
Qed.

Lemma frame_move fuel deltaTime g h :
  length (tail g) = tailLength g ->
  newHead g = Some h ->
  stepDue deltaTime g = true ->
  isAt (apple_x g) (apple_y g) h = false ->
  OnUpdatePlaying rand fuel deltaTime g
  = Done (movedGame (scheduled deltaTime g) h,
          frame (movedGame (scheduled deltaTime g) h)).
Proof.
  intros Hlen Hh Hdue Happle. rewrite OnUpdatePlaying_unfold, Hdue.
  rewrite (simulationStep_move _ _ h); try assumption.
  - cbn [mbind outcome_bind].
    rewrite renderPlaying_in_bounds; [reflexivity|].
    cbn [movedGame tail tailLength]. rewrite removelast_cons_length.
    exact Hlen.
  - cbn. lia.
Qed.

Lemma frame_eat fuel deltaTime g h :
  length (tail g) = tailLength g ->
  newHead g = Some h ->
  stepDue deltaTime g = true ->
  isAt (apple_x g) (apple_y g) h = true ->
  OnUpdatePlaying rand fuel deltaTime g
  = match respawnApple rand fuel (h :: tail g) (tailLength g) (randCalls g) with
    | Done (ax, ay, calls) =>
        Done (grownGame (scheduled deltaTime g) h ax ay calls,
              frame (grownGame (scheduled deltaTime g) h ax ay calls))
    | OutOfBounds => OutOfBounds
    | Diverges => Diverges
    end.
Proof.
  intros Hlen Hh Hdue Happle. rewrite OnUpdatePlaying_unfold, Hdue.
  rewrite (simulationStep_eat _ _ h); try assumption; [|cbn; lia].
  change (tail (scheduled deltaTime g)) with (tail g).
  change (tailLength (scheduled deltaTime g)) with (tailLength g).
  change (randCalls (scheduled deltaTime g)) with (randCalls g).
  destruct (respawnApple _ _ _ _ _) as [[[ax ay] calls]| |];
    cbn [mbind outcome_bind]; try reflexivity.
  rewrite renderPlaying_in_bounds; [reflexivity|].
  cbn. now rewrite Hlen.
Qed.

(** ** The invariant of the frames *)

Lemma consistent_initial : consistent initial.
Proof. split; [reflexivity|discriminate]. Qed.

Lemma consistent_init g : consistent (InitPlayingState rand g).
Proof. split; [reflexivity|discriminate]. Qed.

Lemma consistent_event keys g : consistent g -> consistent (OnEvent rand keys g).
Proof.
  intros Hg. unfold OnEvent, OnEventMenu, OnEventPlaying.
  destruct Hg as [Hlen Hne].
  destruct (state g) eqn:Hst;
    repeat match goal with
           | |- context [if ?b then _ else _] => destruct b
           end;
    try apply consistent_init; split; cbn; try assumption; try discriminate;
    intros E; first [apply Hne; congruence | congruence].
Qed.

Lemma consistent_update fuel deltaTime g g' drawn :
  consistent g ->
  OnUpdate rand fuel deltaTime g = Done (g', drawn) ->
  consistent g'.
Proof.
  intros [Hlen Hne] Hrun. unfold OnUpdate in Hrun.
  destruct (state g) eqn:Hst; try (inversion Hrun; subst; split;
    [assumption | intros E; rewrite Hst in E; discriminate]).
  destruct (newHead_some g (Hne eq_refl)) as [h Hh].
  destruct (stepDue deltaTime g) eqn:Hdue.
  - destruct (isAt (apple_x g) (apple_y g) h) eqn:Happle.
    + rewrite (frame_eat _ _ _ h) in Hrun by assumption.
      destruct (respawnApple _ _ _ _ _) as [[[ax ay] calls]| |];
        inversion Hrun; subst.
      split; cbn; [now rewrite Hlen | discriminate].
    + rewrite (frame_move _ _ _ h) in Hrun by assumption.
      inversion Hrun; subst. split.
      * cbn [movedGame tail tailLength]. now rewrite removelast_cons_length.
      * intros _. cbn [movedGame tail].
        change (tail (scheduled deltaTime g)) with (tail g).
        rewrite removelast_cons_cons by (apply Hne; reflexivity).
        discriminate.
  - rewrite frame_idle in Hrun by assumption. inversion Hrun; subst.
    split; [exact Hlen | intros _; now apply Hne].
Qed.

Lemma reachable_consistent g : reachable rand g -> consistent g.
Proof.
  induction 1 as [|g keys _ IH|g fuel deltaTime g' drawn _ IH Hrun].
  - apply consistent_initial.
  - now apply consistent_event.
  - eapply consistent_update; eauto.
Qed.

Lemma OnUpdate_in_bounds fuel deltaTime g :
  consistent g -> OnUpdate rand fuel deltaTime g <> OutOfBounds.
Proof.
  intros [Hlen Hne]. unfold OnUpdate.
  destruct (state g) eqn:Hst; try discriminate.
  destruct (newHead_some g (Hne eq_refl)) as [h Hh].
  destruct (stepDue deltaTime g) eqn:Hdue.
  - destruct (isAt (apple_x g) (apple_y g) h) eqn:Happle.
    + rewrite (frame_eat _ _ _ h) by assumption.
      pose proof (respawnApple_result (h :: tail g) (tailLength g))
        as Hres.
      specialize (Hres ltac:(cbn; lia) fuel (randCalls g)).
      destruct (respawnApple _ _ _ _ _) as [[[ax ay] calls]| |];
        [discriminate | contradiction | discriminate].
    + rewrite (frame_move _ _ _ h) by assumption. discriminate.
  - rewrite frame_idle by assumption. discriminate.
Qed.

End Step.


(** ** The claims about a frame *)

Lemma started_reachable rand : reachable rand (started rand).
Proof. apply reach_event, reach_initial. Qed.

Lemma stepState_LOSE g h :
  length (tail g) = tailLength g -> state g = PLAYING ->
  (stepState g h = LOSE <-> In h (tail g)) /\
  (stepState g h = LOSE \/ stepState g h = PLAYING).
Proof.
  intros Hlen Hst. unfold stepState.
  rewrite <- Hlen, firstn_all.
  pose proof (existsb_isAt (tail_x h) (tail_y h) (tail g)) as Hin.
  replace (mkTail (tail_x h) (tail_y h)) with h in Hin by now destruct h.
  destruct (existsb _ _).
  - split; [|now left]. split; [intros _; now apply Hin | reflexivity].
  - split; [|now right]. rewrite Hst. split; [discriminate|].
    intros H. apply Hin in H. discriminate.
Qed.

(** C10: at the start of every frame of every reachable state the segment
    vector holds exactly [tailLength] segments, at least one while PLAYING
    (InitPlayingState sets both to six; after the insertion of a step the
    vector holds [tailLength + 1]), and no update, whatever its delta time,
    reads the vector outside its bounds. *)
Theorem C10_segment_accesses_in_bounds (rand : nat -> Z) (g : SnakeGame) :
  reachable rand g ->
  length (tail g) = tailLength g /\
  (state g = PLAYING -> (0 < tailLength g)%nat) /\
  (forall g0, length (tail (InitPlayingState rand g0))
              = tailLength (InitPlayingState rand g0)) /\
  (forall h, length (h :: tail g) = S (tailLength g)) /\
  (forall fuel deltaTime, OnUpdate rand fuel deltaTime g <> OutOfBounds).
Proof.
  intros Hreach. pose proof (reachable_consistent rand g Hreach) as Hg.
  destruct Hg as [Hlen Hne]. split; [exact Hlen|]. split; [|split; [|split]].
  - intros Hst. specialize (Hne Hst). rewrite <- Hlen.
    destruct (tail g); [congruence | cbn; lia].
  - reflexivity.
  - intros h. cbn. now rewrite Hlen.
  - intros fuel deltaTime. apply OnUpdate_in_bounds. now split.
Qed.

Lemma C10_segment_accesses_in_bounds_witness :
  length (tail (started streamOntoTail)) = 6%nat /\
  OnUpdate streamOntoTail 1 16 (started streamOntoTail) <> OutOfBounds.
Proof.
  destruct (C10_segment_accesses_in_bounds streamOntoTail
              (started streamOntoTail) (started_reachable streamOntoTail))
    as (Hlen & _ & _ & _ & Hsafe).
  split; [exact Hlen | apply Hsafe].
Defined.

(** C2, amended: from a reachable PLAYING state no event leads to LOSE, and
    an update that returns leaves the game in LOSE exactly when a step was
    due and its wrapped new head lies on a segment of the body as it was
    before the insertion (otherwise the game stays PLAYING); on every due
    step the new head is the first segment afterwards, and the frame is
    rendered: apple, every segment, score.  The update reads no segment out
    of bounds, and it fails to return exactly when a step is due, the new
    head is on the apple and the respawn search does not return. *)
Theorem C2_lose_exactly_on_self_collision
    (rand : nat -> Z) (g : SnakeGame) (fuel : nat) (deltaTime : Z) :
  reachable rand g -> state g = PLAYING ->
  exists h,
    newHead g = Some h /\
    (forall keys, state (OnEvent rand keys g) <> LOSE) /\
    OnUpdate rand fuel deltaTime g <> OutOfBounds /\
    (OnUpdate rand fuel deltaTime g = Diverges <->
     stepDue deltaTime g = true /\ h = appleCell g /\
     respawnApple rand fuel (h :: tail g) (tailLength g) (randCalls g)
     = Diverges) /\
    forall g' drawn,
      OnUpdate rand fuel deltaTime g = Done (g', drawn) ->
      (state g' = LOSE <-> stepDue deltaTime g = true /\ In h (tail g)) /\
      (state g' = LOSE \/ state g' = PLAYING) /\
      (stepDue deltaTime g = true -> exists rest, tail g' = h :: rest) /\
      drawn = frame g'.
Proof.
  intros Hreach Hst.
  pose proof (reachable_consistent rand g Hreach) as Hg.
  pose proof (OnUpdate_in_bounds rand fuel deltaTime g Hg) as Hsafe.
  destruct Hg as [Hlen Hne].
  destruct (newHead_some g (Hne Hst)) as [h Hh].
  exists h. split; [exact Hh|]. split; [|split; [exact Hsafe|]].
  { intros keys. unfold OnEvent, OnEventPlaying. rewrite Hst.
    repeat match goal with
           | |- context [if ?b then _ else _] => destruct b
           end; cbn; congruence. }
  destruct (stepState_LOSE (scheduled deltaTime g) h Hlen Hst)
    as [Hlose Hstates].
  change (tail (scheduled deltaTime g)) with (tail g) in Hlose.
  unfold OnUpdate in *. rewrite Hst in *.
  destruct (stepDue deltaTime g) eqn:Hdue.
  - destruct (isAt (apple_x g) (apple_y g) h) eqn:Happle.
    + rewrite (frame_eat _ _ _ _ h) in * by assumption.
      split.
      { apply appleCell_isAt in Happle.
        destruct (respawnApple _ _ _ _ _) as [[[ax ay] calls]| |].
        - split; [discriminate | intros (_ & _ & E); discriminate E].
        - split; [discriminate | intros (_ & _ & E); discriminate E].
        - now repeat split. }
      intros g' drawn Hrun.
      destruct (respawnApple _ _ _ _ _) as [[[ax ay] calls]| |];
        inversion Hrun; subst; clear Hrun.
      cbn [grownGame state tail].
      split; [rewrite Hlose; tauto|].
      split; [exact Hstates|]. split; [eauto|reflexivity].
    + rewrite (frame_move _ _ _ _ h) in * by assumption.
      split.
      { split; [discriminate|]. intros (_ & E & _).
        apply appleCell_isAt in E. congruence. }
      intros g' drawn Hrun. inversion Hrun; subst; clear Hrun.
      cbn [movedGame state tail].
      split; [rewrite Hlose; tauto|].
      split; [exact Hstates|]. split; [|reflexivity].
      intros _. change (tail (scheduled deltaTime g)) with (tail g).
      rewrite removelast_cons_cons by (now apply Hne). eauto.
  - rewrite frame_idle in * by assumption.
    split; [split; [discriminate | intros (E & _); discriminate]|].
    intros g' drawn Hrun. inversion Hrun; subst; clear Hrun.
    cbn [scheduled set_schedule state]. rewrite Hst.
    split; [split; [discriminate | intros [E _]; discriminate]|].
    split; [now right|]. split; [discriminate|reflexivity].
Qed.

Lemma C2_lose_exactly_on_self_collision_witness :
  exists h,
    newHead (started streamOntoTail) = Some h /\
    forall g' drawn,
      OnUpdate streamOntoTail 1 16 (started streamOntoTail) = Done (g', drawn) ->
      (state g' = LOSE <->
       stepDue 16 (started streamOntoTail) = true /\
       In h (tail (started streamOntoTail))).
Proof.
  destruct (C2_lose_exactly_on_self_collision streamOntoTail
              (started streamOntoTail) 1 16
              (started_reachable streamOntoTail) eq_refl)
    as (h & Hh & _ & _ & _ & Hrun).
  exists h. split; [exact Hh|].
  intros g' drawn E. exact (proj1 (Hrun g' drawn E)).
Defined.




(** C1, the code at a failing input: the game is started with the first
    apple on (9,8); the first due step eats it, the search draws (3,8),
    which is on none of the six segments it compares with, and the apple is
    placed there, on the seventh and last segment of the grown snake. *)
Theorem C1_respawn_on_last_segment :
  exists g' drawn,
    newHead (started streamOntoTail) = Some (appleCell (started streamOntoTail)) /\
    OnUpdate streamOntoTail 1 16 (started streamOntoTail) = Done (g', drawn) /\
    length (tail g') = tailLength g' /\
    appleCell g' = mkTail 3 8 /\
    tail g' !! 6%nat = Some (appleCell g') /\
    In (appleCell g') (tail g').
Proof.
  eexists _, _. split; [reflexivity|]. split; [vm_compute; reflexivity|].
  cbn. repeat split. tauto.
Qed.

(** What the search does guarantee: the apple of an eating step is a cell
    off the first [tailLength] segments of the vector after the insertion,
    that is, off the new head and all old segments but the last. *)
Lemma respawn_off_compared_segments
    (rand : nat -> Z) (g : SnakeGame) (fuel : nat) (deltaTime : Z)
    (g' : SnakeGame) (drawn : list RenderCall) :
  reachable rand g -> state g = PLAYING ->
  stepDue deltaTime g = true -> newHead g = Some (appleCell g) ->
  OnUpdate rand fuel deltaTime g = Done (g', drawn) ->
  ~ In (appleCell g') (take (tailLength g) (tail g')).
Proof.
  intros Hreach Hst Hdue Hh Hrun.
  destruct (reachable_consistent rand g Hreach) as [Hlen Hne].
  unfold OnUpdate in Hrun. rewrite Hst in Hrun.
  rewrite (frame_eat _ _ _ _ (appleCell g)) in Hrun;
    try assumption; [|now apply appleCell_isAt].
  pose proof (respawnApple_result rand (appleCell g :: tail g) (tailLength g)
                ltac:(cbn; lia) fuel (randCalls g)) as Hres.
  destruct (respawnApple _ _ _ _ _) as [[[ax ay] calls]| |];
    inversion Hrun; subst; clear Hrun.
  destruct Hres as (k & _ & _ & Hfree & _).
  unfold freeCell in Hfree. cbn [fst snd] in Hfree.
  apply negb_true_iff in Hfree.
  intros Hin. apply (existsb_isAt ax ay) in Hin.
  cbn [grownGame tail] in Hin.
  change (tail (scheduled deltaTime g)) with (tail g) in Hin. congruence.
Qed.

(** C5 fails as written: with a stream that draws (9,8) for ever and the
    snake eating the apple on (9,8), the search compares every draw with
    the new head and gives no result, whatever the fuel. *)
Lemma C5_search_never_returns_counterexample :
  reachable streamOfOneCell (started streamOfOneCell) /\
  forall fuel,
    OnUpdate streamOfOneCell fuel 16 (started streamOfOneCell) = Diverges.
Proof.
  split; [apply started_reachable|]. intros fuel.
  change (OnUpdate streamOfOneCell fuel 16 (started streamOfOneCell))
    with (OnUpdatePlaying streamOfOneCell fuel 16 (started streamOfOneCell)).
  rewrite (frame_eat _ _ _ _ (mkTail 9 8)) by reflexivity.
  pose proof (respawnApple_result streamOfOneCell
                (mkTail 9 8 :: tail (started streamOfOneCell))
                (tailLength (started streamOfOneCell))
                ltac:(cbn; lia) fuel (randCalls (started streamOfOneCell)))
    as Hres.
  assert (forall k, sample streamOfOneCell 2 k = (9, 8)) as Hsample.
  { intros k. unfold sample, streamOfOneCell.
    rewrite Nat.even_succ, <- Nat.negb_even, Nat.even_add_mul_2.
    reflexivity. }
  destruct (respawnApple _ _ _ _ _) as [[[ax ay] calls]| |];
    [|contradiction|reflexivity].
  destruct Hres as (k & _ & Hcell & Hfree & _).
  change (randCalls (started streamOfOneCell)) with 2%nat in Hcell.
  rewrite Hsample in Hcell. inversion Hcell; subst. discriminate Hfree.
Qed.

(** C5, amended: the respawn search reads no segment out of bounds and
    returns, given enough fuel, exactly when the random stream at some draw
    yields a cell that is on none of the first [tailLength] segments; the
    cell it returns is such a cell.  Under a stream without such a draw it
    does not return. *)
Theorem C5_respawn_returns_iff_free_draw
    (rand : nat -> Z) (tl : list Tail) (n calls : nat) :
  (n <= length tl)%nat ->
  ((exists fuel r, respawnApple rand fuel tl n calls = Done r) <->
   (exists k, freeCell tl n (sample rand calls k) = true)) /\
  (forall fuel, respawnApple rand fuel tl n calls <> OutOfBounds) /\
  (forall fuel ax ay calls',
     respawnApple rand fuel tl n calls = Done (ax, ay, calls') ->
     freeCell tl n (ax, ay) = true).
Proof.
  intros Hlen. split; [split|split].
  - intros (fuel & r & Hrun).
    pose proof (respawnApple_result rand tl n Hlen fuel calls) as Hres.
    rewrite Hrun in Hres. destruct r as [[ax ay] calls'].
    destruct Hres as (k & _ & Hcell & Hfree & _).
    exists k. now rewrite <- Hcell.
  - intros (k & Hfree). exists (S k).
    apply (respawnApple_terminates rand tl n calls k Hlen Hfree). lia.
  - intros fuel Hrun.
    pose proof (respawnApple_result rand tl n Hlen fuel calls) as Hres.
    now rewrite Hrun in Hres.
  - intros fuel ax ay calls' Hrun.
    pose proof (respawnApple_result rand tl n Hlen fuel calls) as Hres.
    rewrite Hrun in Hres. now destruct Hres as (k & _ & _ & Hfree & _).
Qed.

Lemma C5_respawn_returns_iff_free_draw_witness :
  exists fuel r,
    respawnApple streamOntoTail fuel
      (mkTail 9 8 :: tail (started streamOntoTail)) 6 2 = Done r.
Proof.
  destruct (C5_respawn_returns_iff_free_draw streamOntoTail
              (mkTail 9 8 :: tail (started streamOntoTail)) 6 2
              ltac:(cbn; lia)) as ((_ & Hreturns) & _).
  apply Hreturns. exists O. reflexivity.
Defined.

(** ** Steps that do not return *)

Lemma respawnApple_no_free_draw rand tl n calls :
  (n <= length tl)%nat ->
  (forall k, freeCell tl n (sample rand calls k) = false) ->
  forall fuel, respawnApple rand fuel tl n calls = Diverges.
Proof.
  intros Hlen Htaken fuel.
  pose proof (respawnApple_result rand tl n Hlen fuel calls) as Hres.
  destruct (respawnApple _ _ _ _ _) as [[[ax ay] calls']| |];
    [|contradiction|reflexivity].
  destruct Hres as (k & _ & Hcell & Hfree & _).
  rewrite Hcell, Htaken in Hfree. discriminate.
Qed.

Lemma updated_reachable rand fuel deltaTime g :
  reachable rand g -> reachable rand (updated rand fuel deltaTime g).
Proof.
  intros Hreach. unfold updated.
  destruct (OnUpdate rand fuel deltaTime g) as [[g' drawn]| |] eqn:Hrun;
    try exact Hreach.
  exact (reach_update rand g fuel deltaTime g' drawn Hreach Hrun).
Qed.

Lemma eating_step_no_free_draw rand fuel deltaTime g h :
  length (tail g) = tailLength g ->
  state g = PLAYING ->
  newHead g = Some h ->
  stepDue deltaTime g = true ->
  isAt (apple_x g) (apple_y g) h = true ->
  (forall k, freeCell (h :: tail g) (tailLength g)
                      (sample rand (randCalls g) k) = false) ->
  OnUpdate rand fuel deltaTime g = Diverges.
Proof.
  intros Hlen Hst Hh Hdue Happle Htaken.
  unfold OnUpdate. rewrite Hst.
  rewrite (frame_eat rand fuel deltaTime g h Hlen Hh Hdue Happle).
  rewrite respawnApple_no_free_draw; [reflexivity|cbn; lia|exact Htaken].
Qed.

(** C2 fails as written: a step onto a segment of the snake can be a step
    onto the apple as well, and then the update is inside the respawn search
    when the game should be lost.  Under the stream 7, 8, 7, 8, ... the first
    apple lies under the snake; two turns later the head stands on (7,7),
    above the apple and the snake's own fourth segment, and the step down is
    due.  Every draw of the search is the cell (7,8) of the new head, so the
    update gives no result, whatever the fuel: the head is on the snake, and
    no frame follows in which the game is lost or anything is rendered. *)
Lemma C2_collision_onto_apple_counterexample :
  reachable streamOfCell78 aboveOwnApple /\
  state aboveOwnApple = PLAYING /\
  stepDue 100 aboveOwnApple = true /\
  newHead aboveOwnApple = Some (mkTail 7 8) /\
  In (mkTail 7 8) (take (tailLength aboveOwnApple) (tail aboveOwnApple)) /\
  appleCell aboveOwnApple = mkTail 7 8 /\
  forall fuel, OnUpdate streamOfCell78 fuel 100 aboveOwnApple = Diverges.
Proof.
  split.
  { apply reach_event, updated_reachable, reach_event, updated_reachable,
      reach_event, started_reachable. }
  split; [reflexivity|]. split; [reflexivity|]. split; [reflexivity|].
  split; [vm_compute; tauto|]. split; [reflexivity|].
  intros fuel.
  apply (eating_step_no_free_draw _ _ _ _ (mkTail 7 8)); try reflexivity.
  intros k.
  assert (sample streamOfCell78 (randCalls aboveOwnApple) k = (7, 8)) as ->.
  { change (randCalls aboveOwnApple) with 2%nat.
    unfold sample, streamOfCell78.
    rewrite Nat.even_succ, <- Nat.negb_even, Nat.even_add_mul_2.
    reflexivity. }
  reflexivity.
Qed.


End SnakeFacts.

(** * Properties of the particle emitter *)

Module ParticleFacts.

Import Particles.

(** ** Loops with an invariant *)

Lemma for_from_invariant {St} (P : St -> Prop) (body : nat -> St -> outcome St) :
  (forall i s s', P s -> body i s = Done s' -> P s') ->
  forall n i s s', P s -> for_from i n body s = Done s' -> P s'.
Proof.
  intros Hbody. induction n as [|n IH]; intros i s s' Hs Hrun; cbn in Hrun.
  - now inversion Hrun; subst.
  - destruct (body i s) as [s1| |] eqn:Hstep; cbn in Hrun; try discriminate.
    eapply IH; [|exact Hrun]. eapply Hbody; eauto.
Qed.

Lemma for_from_returns {St} (P : St -> Prop) (body : nat -> St -> outcome St) :
  (forall i s, P s -> exists s', body i s = Done s' /\ P s') ->
  forall n i s, P s -> exists s', for_from i n body s = Done s' /\ P s'.
Proof.
  intros Hbody. induction n as [|n IH]; intros i s Hs; cbn.
  - eauto.
  - destruct (Hbody i s Hs) as (s1 & -> & Hs1). cbn. now apply IH.
Qed.

(** ** The pool loops *)

Lemma updatePool_from deltaTime sp n : forall i pool,
  (i + n <= length pool)%nat ->
  exists pool',
    for_from i n (fun i pool =>
      p ← vec_at pool i;
      mret (<[i := updateParticle deltaTime sp p]> pool)) pool = Done pool' /\
    length pool' = length pool /\
    forall j, pool' !! j =
              if decide (i <= j < i + n)%nat
              then updateParticle deltaTime sp <$> pool !! j
              else pool !! j.
Proof.
  induction n as [|n IH]; intros i pool Hlen; cbn [for_from].
  - exists pool. repeat split. intros j. case_decide; [lia|reflexivity].
  - destruct (lookup_lt_is_Some_2 pool i) as [p Hp]; [lia|].
    rewrite (vec_at_Done _ _ _ Hp). cbn [mbind outcome_bind mret outcome_ret].
    destruct (IH (S i) (<[i := updateParticle deltaTime sp p]> pool))
      as (pool' & Hrun & Hlen' & Hlookup).
    { rewrite length_insert. lia. }
    exists pool'. split; [exact Hrun|]. split.
    { now rewrite Hlen', length_insert. }
    intros j. rewrite Hlookup.
    destruct (decide (j = i)) as [->|Hji].
    + rewrite list_lookup_insert_eq by lia. rewrite Hp.
      repeat case_decide; try lia; reflexivity.
    + rewrite list_lookup_insert_ne by congruence.
      repeat case_decide; try lia; reflexivity.
Qed.

Lemma updatePool_map deltaTime sp (pool : list Particle) :
  updatePool deltaTime sp (length pool) pool
  = Done (updateParticle deltaTime sp <$> pool).
Proof.
  unfold updatePool, for_loop.
  destruct (updatePool_from deltaTime sp (length pool) 0 pool)
    as (pool' & -> & Hlen & Hlookup); [lia|].
  f_equal. apply list_eq. intros j.
  rewrite Hlookup, list_lookup_fmap.
  case_decide as Hj; [reflexivity|].
  rewrite lookup_ge_None_2 by lia. reflexivity.
Qed.

Lemma particle_render_from (pool : list Particle) n : forall i drawn,
  (i + n <= length pool)%nat ->
  for_from i n (fun i drawn =>
    p ← vec_at pool i;
    mret (if p_active p
          then drawn ++ [mkRender (p_x p) (p_y p) (alphaOf p)]
          else drawn)) drawn
  = Done (drawn ++ (renderOf <$> filter (fun p => p_active p = true)
                                        (take n (drop i pool)))).
Proof.
  induction n as [|n IH]; intros i drawn Hlen; cbn [for_from].
  - now rewrite take_0, app_nil_r.
  - destruct (lookup_lt_is_Some_2 pool i) as [p Hp]; [lia|].
    rewrite (vec_at_Done _ _ _ Hp). cbn [mbind outcome_bind mret outcome_ret].
    rewrite IH by lia. rewrite (drop_S _ _ _ Hp). cbn [take].
    rewrite filter_cons.
    destruct (p_active p) eqn:Hact.
    + rewrite decide_True by reflexivity. cbn. now rewrite <- app_assoc.
    + rewrite decide_False by discriminate. reflexivity.
Qed.

Lemma OnRender_in_bounds e :
  length (particlePool e) = maxParticles e ->
  OnRender e = Done (renderOf <$> filter (fun p => p_active p = true)
                                         (particlePool e)).
Proof.
  intros Hlen. unfold OnRender, for_loop.
  rewrite particle_render_from by lia. cbn.
  now rewrite drop_0, <- Hlen, firstn_all.
Qed.


(** ** The emitter keeps its pool *)

Section Emitter.

Variable rand : nat -> Z.
Variable RAND_MAX : Z.

Lemma createParticle_sized e e' :
  poolSized e -> createParticle rand RAND_MAX e = Done e' -> poolSized e'.
Proof.
  unfold poolSized, createParticle. intros Hlen Hrun.
  destruct (vec_at _ _); cbn in Hrun; inversion Hrun; subst; cbn.
  now rewrite length_insert.
Qed.

Lemma createParticle_returns e :
  indexInPool e ->
  exists e', createParticle rand RAND_MAX e = Done e' /\ indexInPool e'.
Proof.
  intros [Hlen Hidx]. unfold createParticle.
  destruct (lookup_lt_is_Some_2 (particlePool e) (currentParticlePoolIndex e))
    as [p Hp]; [unfold poolSized in Hlen; lia|].
  rewrite (vec_at_Done _ _ _ Hp). cbn [mbind outcome_bind].
  eexists. split; [reflexivity|]. split.
  - unfold poolSized in *. cbn. now rewrite length_insert.
  - cbn. destruct (Z.ltb_spec (Z.of_nat (maxParticles e) - 2)
                               (Z.of_nat (S (currentParticlePoolIndex e)))); lia.
Qed.



Lemma OnUpdate_returns deltaTime ticks e :
  indexInPool e ->
  exists e' drawn,
    OnUpdate rand RAND_MAX deltaTime ticks e = Done (e', drawn) /\
    indexInPool e'.
Proof.
  intros Hidx. unfold OnUpdate.
  destruct (active e); cbn [negb]; [|eauto].
  assert (exists e1,
    (if Qltb (particlesCreatedThisSecond e)
          (inject_Z (toInt ((inject_Z ticks - startOfSecond e)
                             * inject_Z (newParticlesPerSecond e) / 1000)))
     then for_loop
            (Z.to_nat (toInt
               (inject_Z (toInt ((inject_Z ticks - startOfSecond e)
                                 * inject_Z (newParticlesPerSecond e) / 1000))
                - particlesCreatedThisSecond e)))
            (fun _ e0 => createParticle rand RAND_MAX e0) e
     else Done e) = Done e1 /\ indexInPool e1) as (e1 & -> & Hidx1).
  { destruct (Qltb _ _); [|eauto].
    apply (for_from_returns indexInPool); [|exact Hidx].
    intros _ s Hs. now apply createParticle_returns. }
  cbn [mbind outcome_bind].
  destruct Hidx1 as [Hsized1 Hlt]. unfold poolSized in Hsized1.
  rewrite <- Hsized1. rewrite updatePool_map. cbn [mbind outcome_bind].
  rewrite OnRender_in_bounds by (cbn; now rewrite length_fmap).
  eexists _, _. split; [reflexivity|]. split.
  - unfold poolSized. cbn. now rewrite length_fmap.
  - exact Hlt.
Qed.


Lemma runUpdates_returns inputs : forall e,
  indexInPool e -> exists e', runUpdates rand RAND_MAX inputs e = Done e'.
Proof.
  induction inputs as [|[deltaTime ticks] rest IH]; intros e Hidx; cbn.
  - eauto.
  - destruct (OnUpdate_returns deltaTime ticks e Hidx)
      as (e1 & drawn & -> & Hidx1).
    cbn. now apply IH.
Qed.

(** The phases of an update of an active emitter. *)
Lemma OnUpdate_phases deltaTime ticks e e' drawn :
  poolSized e -> active e = true ->
  OnUpdate rand RAND_MAX deltaTime ticks e = Done (e', drawn) ->
  exists e1,
    createDue rand RAND_MAX ticks e = Done e1 /\
    poolSized e1 /\
    e' = set_pool (updateParticle deltaTime (speed e1) <$> particlePool e1) e1 /\
    drawn = renderOf <$> filter (fun p => p_active p = true) (particlePool e').
Proof.
  intros Hsized Hactive Hrun. unfold OnUpdate in Hrun.
  rewrite Hactive in Hrun. cbn [negb] in Hrun.
  fold (targetCount ticks e) in Hrun. fold (createDue rand RAND_MAX ticks e) in Hrun.
  destruct (createDue rand RAND_MAX ticks e) as [e1| |] eqn:Hcreate;
    cbn [mbind outcome_bind] in Hrun; try discriminate.
  assert (poolSized e1) as Hsized1.
  { unfold createDue in Hcreate. destruct (Qltb _ _).
    - unfold for_loop in Hcreate.
      eapply (for_from_invariant poolSized
                (fun _ e0 => createParticle rand RAND_MAX e0));
        [|exact Hsized|exact Hcreate].
      intros i s s' Hs Hstep. eapply createParticle_sized; eauto.
    - now inversion Hcreate; subst. }
  exists e1. split; [reflexivity|]. split; [exact Hsized1|].
  unfold poolSized in Hsized1. rewrite <- Hsized1 in Hrun.
  rewrite updatePool_map in Hrun. cbn [mbind outcome_bind] in Hrun.
  rewrite OnRender_in_bounds in Hrun by (cbn; now rewrite length_fmap).
  inversion Hrun; subst. now split.
Qed.

Lemma runUpdates_invariant (P : ParticleEmitter -> Prop)
    (allowed : Q * Z -> Prop) :
  (forall deltaTime ticks e e' drawn,
     allowed (deltaTime, ticks) -> P e ->
     OnUpdate rand RAND_MAX deltaTime ticks e = Done (e', drawn) -> P e') ->
  forall inputs e e',
    Forall allowed inputs -> P e ->
    runUpdates rand RAND_MAX inputs e = Done e' -> P e'.
Proof.
  intros Hstep. induction inputs as [|[deltaTime ticks] rest IH];
    intros e e' Hallowed He Hrun; cbn in Hrun.
  - now inversion Hrun; subst.
  - apply Forall_cons in Hallowed as [Hfirst Hrest].
    destruct (OnUpdate rand RAND_MAX deltaTime ticks e) as [[e1 drawn]| |]
      eqn:Hupdate; cbn in Hrun; try discriminate.
    eapply IH; [exact Hrest| |exact Hrun]. eapply Hstep; eauto.
Qed.

Lemma createDue_invariant (P : ParticleEmitter -> Prop) ticks e e1 :
  (forall s s', P s -> createParticle rand RAND_MAX s = Done s' -> P s') ->
  P e -> createDue rand RAND_MAX ticks e = Done e1 -> P e1.
Proof.
  intros Hstep He Hcreate. unfold createDue in Hcreate.
  destruct (Qltb _ _); [|now inversion Hcreate; subst].
  unfold for_loop in Hcreate.
  eapply (for_from_invariant P (fun _ e0 => createParticle rand RAND_MAX e0));
    [|exact He|exact Hcreate].
  intros _ s s'. apply Hstep.
Qed.

(** ** What an update does to a slot *)



End Emitter.


(** ** The life of a particle *)

Lemma updateParticle_inactive deltaTime sp p :
  p_active p = false -> updateParticle deltaTime sp p = p.
Proof. unfold updateParticle. now intros ->. Qed.

Lemma updateParticle_active deltaTime sp p :
  p_active p = true ->
  p_active (updateParticle deltaTime sp p)
    = negb (Qle_bool (lifeTimeRemaining p - deltaTime) 0) /\
  lifeTimeRemaining (updateParticle deltaTime sp p)
    = (lifeTimeRemaining p - deltaTime)%Q /\
  totalLifeTime (updateParticle deltaTime sp p) = totalLifeTime p.
Proof.
  unfold updateParticle. intros ->.
  now destruct (Qle_bool (lifeTimeRemaining p - deltaTime) 0).
Qed.


(** ** The alpha of a render call *)

Lemma Qtrunc_nonneg q : (0 <= q)%Q -> Qtrunc q = Qfloor q.
Proof. intros H. unfold Qtrunc. apply Qle_bool_iff in H. now rewrite H. Qed.

Lemma toInt_in_range q : INT_MIN <= Qtrunc q <= INT_MAX -> toInt q = Qtrunc q.
Proof.
  intros [Hlow Hhigh]. unfold toInt.
  apply Z.leb_le in Hlow. apply Z.leb_le in Hhigh.
  now rewrite Hlow, Hhigh.
Qed.

(** Within the range of [int] the alpha is a floor of a floor. *)
Lemma alphaOf_in_range p :
  (0 < totalLifeTime p)%Q ->
  (0 <= lifeTimeRemaining p <= totalLifeTime p)%Q ->
  (totalLifeTime p <= maxLifeTime)%Q ->
  alphaOf p
  = Qfloor (inject_Z (Qfloor (lifeTimeRemaining p * 255)) / totalLifeTime p) /\
  0 <= alphaOf p <= 255.
Proof.
  intros Hpos [Hlow Hhigh] Hmax. unfold maxLifeTime in Hmax. unfold alphaOf.
  pose proof (Qfloor_le (lifeTimeRemaining p * 255)) as Hfloor.
  assert (0 <= Qfloor (lifeTimeRemaining p * 255) <= 2139095040) as Hcross.
  { split.
    - apply (Z.le_trans _ (Qfloor 0%Q));
        [exact (Z.le_refl 0) | apply Qfloor_resp_le; lra].
    - apply (Z.le_trans _ (Qfloor 2139095040%Q));
        [apply Qfloor_resp_le; lra | exact (Z.le_refl 2139095040)]. }
  rewrite (toInt_in_range (lifeTimeRemaining p * 255))
    by (rewrite Qtrunc_nonneg by lra; unfold INT_MIN, INT_MAX; lia).
  rewrite (Qtrunc_nonneg (lifeTimeRemaining p * 255)) by lra.
  destruct (Qeq_bool (totalLifeTime p) 0) eqn:Hzero.
  { apply Qeq_bool_iff in Hzero. lra. }
  assert (0 <= inject_Z (Qfloor (lifeTimeRemaining p * 255)))%Q as Hcross'.
  { now rewrite <- (Zle_Qle 0). }
  assert (0 <= inject_Z (Qfloor (lifeTimeRemaining p * 255)) / totalLifeTime p)%Q
    as Hquot.
  { apply Qle_shift_div_l; [exact Hpos|]. lra. }
  assert (0 <= Qfloor (inject_Z (Qfloor (lifeTimeRemaining p * 255))
                       / totalLifeTime p) <= 255) as Halpha.
  { split.
    - apply (Z.le_trans _ (Qfloor 0%Q)); [exact (Z.le_refl 0)|].
      now apply Qfloor_resp_le.
    - apply (Z.le_trans _ (Qfloor 255%Q)); [|exact (Z.le_refl 255)].
      apply Qfloor_resp_le, Qle_shift_div_r; [exact Hpos|]. lra. }
  rewrite toInt_in_range
    by (rewrite Qtrunc_nonneg by exact Hquot; unfold INT_MIN, INT_MAX; lia).
  rewrite Qtrunc_nonneg by exact Hquot.
  split; [reflexivity|exact Halpha].
Qed.




(** ** The claim about the pool *)



End ParticleFacts.

(** * Further properties of the Snake game *)

Module SnakeInvariants.

Import Snake SnakeFacts.

Section Frames.

Variable rand : nat -> Z.

(** What an update that returns has done. *)
Lemma OnUpdate_cases fuel deltaTime g g' drawn :
  consistent g ->
  OnUpdate rand fuel deltaTime g = Done (g', drawn) ->
  (state g <> PLAYING /\ g' = g) \/
  (state g = PLAYING /\ stepDue deltaTime g = false /\
   g' = scheduled deltaTime g) \/
  (state g = PLAYING /\ stepDue deltaTime g = true /\
   exists h, newHead g = Some h /\
     ((isAt (apple_x g) (apple_y g) h = false /\
       g' = movedGame (scheduled deltaTime g) h) \/
      (isAt (apple_x g) (apple_y g) h = true /\
       exists k,
         freeCell (h :: tail g) (tailLength g)
                  (sample rand (randCalls g) k) = true /\
         g' = grownGame (scheduled deltaTime g) h
                (sample rand (randCalls g) k).1
                (sample rand (randCalls g) k).2
                (randCalls g + 2 * S k)%nat))).
Proof.
  intros [Hlen Hne] Hrun. unfold OnUpdate in Hrun.
  destruct (state g) eqn:Hst;
    try (left; split; [discriminate | now inversion Hrun]).
  right. destruct (newHead_some g (Hne eq_refl)) as [h Hh].
  destruct (stepDue deltaTime g) eqn:Hdue.
  - right. repeat split. exists h. split; [exact Hh|].
    destruct (isAt (apple_x g) (apple_y g) h) eqn:Happle.
    + right. split; [reflexivity|].
      rewrite (frame_eat _ _ _ _ h) in Hrun by assumption.
      pose proof (respawnApple_result rand (h :: tail g) (tailLength g)
                    ltac:(cbn; lia) fuel (randCalls g)) as Hres.
      destruct (respawnApple _ _ _ _ _) as [[[ax ay] calls]| |];
        inversion Hrun; subst; clear Hrun.
      destruct Hres as (k & _ & Hcell & Hfree & -> & _).
      exists k. rewrite <- Hcell. now split.
    + left. split; [reflexivity|].
      rewrite (frame_move _ _ _ _ h) in Hrun by assumption.
      now inversion Hrun.
  - left. repeat split.
    rewrite frame_idle in Hrun by assumption. now inversion Hrun.
Qed.

Lemma wrap_on_grid gridDimension v :
  0 < gridDimension -> 0 <= wrap gridDimension v < gridDimension.
Proof.
  intros Hdim. unfold wrap.
  destruct (Z.ltb_spec (gridDimension - 1) v);
    match goal with
    | |- context [?a <? ?b] => destruct (Z.ltb_spec a b)
    end; lia.
Qed.

Lemma newHead_on_grid g h : newHead g = Some h -> onGrid h.
Proof.
  intros Hh. destruct (newHead_cons g h Hh) as (h0 & rest & _ & ->).
  split; cbn [tail_x tail_y]; apply wrap_on_grid; reflexivity.
Qed.

Lemma Forall_removelast {A} (P : A -> Prop) (l : list A) :
  Forall P l -> Forall P (removelast l).
Proof.
  induction 1 as [|a l Ha Hl IH]; [constructor|].
  destruct l as [|b l]; [constructor|].
  change (removelast (a :: b :: l)) with (a :: removelast (b :: l)).
  now constructor.
Qed.

(** X1: the game is only ever in MENU, PLAYING or LOSE. *)
Theorem X1_pause_unreachable (g : SnakeGame) :
  reachable rand g -> state g = MENU \/ state g = PLAYING \/ state g = LOSE.
Proof.
  intros Hreach.
  induction Hreach as [|g keys Hreach IH|g fuel deltaTime g' drawn Hreach IH Hrun].
  - now left.
  - unfold OnEvent, OnEventMenu, OnEventPlaying.
    destruct IH as [Hst|[Hst|Hst]]; rewrite Hst;
      repeat match goal with
             | |- context [if ?b then _ else _] => destruct b
             end; cbn; tauto.
  - pose proof (reachable_consistent rand g Hreach) as Hg.
    destruct (OnUpdate_cases _ _ _ _ _ Hg Hrun)
      as [[_ ->]|[(_ & _ & ->)|(Hst & _ & h & _ & [[_ ->]|(_ & k & _ & ->)])]];
      try assumption; cbn [scheduled set_schedule state]; try assumption;
      cbn [movedGame grownGame state]; unfold stepState;
      destruct (existsb _ _); cbn [scheduled set_schedule state]; tauto.
Qed.

(** What an event has done. *)
Lemma OnEvent_cases keys g :
  OnEvent rand keys g = g \/
  (state g = PLAYING /\
   exists d, OnEvent rand keys g
             = set_velocity (unitVector d).1 (unitVector d).2 g) \/
  (state g = PLAYING /\ OnEvent rand keys g = set_state MENU g) \/
  (state g <> PLAYING /\
   OnEvent rand keys g = InitPlayingState rand (set_state PLAYING g)).
Proof.
  unfold OnEvent, OnEventMenu, OnEventPlaying.
  destruct (state g) eqn:Hst;
    repeat match goal with
           | |- context [if ?b then _ else _] => destruct b
           end;
    try (now left);
    try (right; right; right; split; [discriminate|reflexivity]);
    try (right; right; left; split; reflexivity);
    right; left; split; try reflexivity;
    first [now exists Up | now exists Down | now exists Left | now exists Right].
Qed.

(** The shape of the snake in every reachable state. *)
Lemma reachable_shape (g : SnakeGame) :
  reachable rand g ->
  Forall onGrid (tail g) /\
  (velocity g = (0, 0) /\ tail g = [] \/ isUnitVector (velocity g)) /\
  (state g <> MENU -> tail g <> []).
Proof.
  intros Hreach.
  induction Hreach as [|g keys Hreach IH|g fuel deltaTime g' drawn Hreach IH Hrun].
  - split; [constructor|]. split; [now left|]. intros H. now contradict H.
  - destruct IH as (Hgrid & Hvel & Hne).
    destruct (OnEvent_cases keys g)
      as [->|[(Hst & d & ->)|[(Hst & ->)|(Hst & ->)]]].
    + now repeat split.
    + split; [exact Hgrid|]. split; [right; exists d; now destruct d|].
      intros _. apply Hne. congruence.
    + split; [exact Hgrid|]. split; [exact Hvel|]. intros H. now contradict H.
    + split; [cbn; repeat constructor; cbn; vm_compute; congruence|].
      split; [right; now exists Right | discriminate].
  - pose proof (reachable_consistent rand g Hreach) as [Hlen Hplay].
    destruct IH as (Hgrid & Hvel & Hne).
    destruct (OnUpdate_cases _ _ _ _ _ (conj Hlen Hplay) Hrun)
      as [[_ ->]|[(_ & _ & ->)|(Hst & _ & h & Hh & [[_ ->]|(_ & k & _ & ->)])]];
      try (split; [exact Hgrid|]; split; [exact Hvel|exact Hne]).
    + cbn [movedGame tail].
      split; [apply Forall_removelast;
              constructor; [now apply (newHead_on_grid g)|exact Hgrid]|].
      split.
      * destruct Hvel as [[_ Hnil]|Hunit];
          [now specialize (Hplay Hst) | right; exact Hunit].
      * intros _. change (tail (scheduled deltaTime g)) with (tail g).
        rewrite removelast_cons_cons by (now apply Hplay). discriminate.
    + cbn [grownGame tail].
      split; [constructor; [now apply (newHead_on_grid g)|exact Hgrid]|].
      split; [|discriminate].
      destruct Hvel as [[_ Hnil]|Hunit];
        [now specialize (Hplay Hst) | right; exact Hunit].
Qed.

(** X3: every segment of the snake is a cell of the grid, and so is the
    head of the next step. *)
Theorem X3_snake_on_grid (g : SnakeGame) :
  reachable rand g ->
  Forall onGrid (tail g) /\ (forall h, newHead g = Some h -> onGrid h).
Proof.
  intros Hreach. destruct (reachable_shape g Hreach) as (Hgrid & _).
  split; [exact Hgrid|]. intros h. apply newHead_on_grid.
Qed.

(** X4: with a [rand()] that returns no negative number, the apple is always
    on a cell of the grid. *)
Theorem X4_apple_on_grid (g : SnakeGame) :
  (forall i, 0 <= rand i) ->
  reachable rand g -> onGrid (appleCell g).
Proof.
  intros Hrand Hreach.
  assert (forall i j, onGrid (mkTail (Z.rem (rand i) GRID_WIDTH)
                                     (Z.rem (rand j) GRID_HEIGHT))) as Hcell.
  { intros i j. split; cbn [tail_x tail_y];
      apply Z.rem_bound_pos; try apply Hrand; reflexivity. }
  induction Hreach as [|g keys Hreach IH|g fuel deltaTime g' drawn Hreach IH Hrun].
  - split; vm_compute; split; congruence.
  - unfold OnEvent, OnEventMenu, OnEventPlaying.
    destruct (state g);
      repeat match goal with
             | |- context [if ?b then _ else _] => destruct b
             end; try exact IH; apply Hcell.
  - pose proof (reachable_consistent rand g Hreach) as Hg.
    destruct (OnUpdate_cases _ _ _ _ _ Hg Hrun)
      as [[_ ->]|[(_ & _ & ->)|(Hst & _ & h & Hh & [[_ ->]|(_ & k & _ & ->)])]];
      try exact IH.
    apply Hcell.
Qed.

(** X5: the score is the number of segments gained since the start: a game
    that was ever started has [tailLength = 6 + score]. *)
Theorem X5_score_counts_growth (g : SnakeGame) :
  reachable rand g ->
  0 <= score g /\
  (tail g = [] /\ score g = 0 \/ Z.of_nat (tailLength g) = 6 + score g).
Proof.
  intros Hreach.
  induction Hreach as [|g keys Hreach IH|g fuel deltaTime g' drawn Hreach IH Hrun].
  - cbn. split; [lia|now left].
  - unfold OnEvent, OnEventMenu, OnEventPlaying.
    destruct (state g);
      repeat match goal with
             | |- context [if ?b then _ else _] => destruct b
             end; try exact IH; cbn; split; try lia; now right.
  - pose proof (reachable_consistent rand g Hreach) as [Hlen Hne].
    destruct (OnUpdate_cases _ _ _ _ _ (conj Hlen Hne) Hrun)
      as [[_ ->]|[(_ & _ & ->)|(Hst & _ & h & Hh & [[_ ->]|(_ & k & _ & ->)])]];
      try exact IH.
    + cbn [movedGame scheduled set_schedule tail tailLength score].
      destruct IH as [Hscore [[Hnil _]|Hcount]];
        [now specialize (Hne Hst) | split; [exact Hscore | now right]].
    + cbn [grownGame scheduled set_schedule tail tailLength score].
      destruct IH as [Hscore [[Hnil _]|Hcount]];
        [now specialize (Hne Hst) | split; [lia | right; lia]].
Qed.

(** X6: the velocity is zero until the first start and one of the four unit
    vectors ever after; while PLAYING or in LOSE it is a unit vector. *)
Theorem X6_velocity_is_unit (g : SnakeGame) :
  reachable rand g ->
  (velocity g = (0, 0) /\ tail g = [] \/ isUnitVector (velocity g)) /\
  (state g <> MENU -> isUnitVector (velocity g)).
Proof.
  intros Hreach. destruct (reachable_shape g Hreach) as (_ & Hvel & Hne).
  split; [exact Hvel|]. intros Hst.
  destruct Hvel as [[_ Hnil]|Hunit]; [|exact Hunit].
  now specialize (Hne Hst).
Qed.

Lemma OnUpdate_schedule fuel deltaTime g g' drawn :
  consistent g ->
  OnUpdate rand fuel deltaTime g = Done (g', drawn) ->
  (movesPerformedThisSecond g' = movesPerformedThisSecond g /\
   secondAccumulator g' = secondAccumulator g) \/
  (movesPerformedThisSecond g' = movesPerformedThisSecond (scheduled deltaTime g) /\
   secondAccumulator g' = secondAccumulator (scheduled deltaTime g)).
Proof.
  intros Hg Hrun.
  destruct (OnUpdate_cases _ _ _ _ _ Hg Hrun)
    as [[_ ->]|[(_ & _ & ->)|(Hst & _ & h & Hh & [[_ ->]|(_ & k & _ & ->)])]];
    [left | right | right | right]; now split.
Qed.

(** X7: the scheduler never counts more than [movesPerSecond] moves in a
    window, and the accumulator stays below 1000 ms, whatever the delta
    times. *)
Theorem X7_scheduler_bounds (g : SnakeGame) :
  reachable rand g ->
  0 <= movesPerformedThisSecond g /\
  (inject_Z (movesPerformedThisSecond g) <= movesPerSecond)%Q /\
  secondAccumulator g < 1000.
Proof.
  intros Hreach.
  enough (0 <= movesPerformedThisSecond g <= 10 /\ secondAccumulator g < 1000)
    as [[Hlow Hhigh] Hacc].
  { repeat split; try assumption.
    unfold movesPerSecond. change 10%Q with (inject_Z 10).
    now rewrite <- Zle_Qle. }
  induction Hreach as [|g keys Hreach IH|g fuel deltaTime g' drawn Hreach IH Hrun].
  - cbn. lia.
  - unfold OnEvent, OnEventMenu, OnEventPlaying.
    destruct (state g);
      repeat match goal with
             | |- context [if ?b then _ else _] => destruct b
             end; exact IH.
  - pose proof (reachable_consistent rand g Hreach) as Hg.
    destruct (OnUpdate_schedule _ _ _ _ _ Hg Hrun) as [[-> ->]|[-> ->]];
      [exact IH|].
    unfold scheduled. rewrite moveScheduler_Z.
    destruct (Z.leb_spec 1000 (secondAccumulator g + deltaTime));
      [cbn; lia|].
    destruct (Z.ltb_spec (100 * movesPerformedThisSecond g)
                         (secondAccumulator g + deltaTime)); cbn; lia.
Qed.

Lemma wrap_modulo gridDimension v d :
  0 <= v < gridDimension -> -1 <= d <= 1 ->
  wrap gridDimension (v + d) = (v + d) mod gridDimension.
Proof.
  intros Hv Hd. unfold wrap.
  destruct (Z.ltb_spec (gridDimension - 1) (v + d)).
  - assert (v + d = gridDimension) as -> by lia.
    rewrite Z.mod_same by lia. reflexivity.
  - destruct (Z.ltb_spec (v + d) 0).
    + assert (v + d = -1) as -> by lia.
      apply (Z.mod_unique_pos _ _ (-1)); lia.
    + symmetry. apply Z.mod_small. lia.
Qed.

(** X8: on the torus a step is addition modulo the grid: the new head is
    the old head plus the velocity, column modulo [GRID_WIDTH] and row
    modulo [GRID_HEIGHT]. *)
Theorem X8_head_moves_modulo_grid (g : SnakeGame) (h0 h : Tail) :
  reachable rand g ->
  tail g !! 0%nat = Some h0 -> newHead g = Some h ->
  tail_x h = (tail_x h0 + xVelocity g) mod GRID_WIDTH /\
  tail_y h = (tail_y h0 + yVelocity g) mod GRID_HEIGHT.
Proof.
  intros Hreach Hh0 Hh.
  destruct (reachable_shape g Hreach) as (Hgrid & Hvel & _).
  destruct (newHead_cons g h Hh) as (h0' & rest & Htl & ->).
  rewrite Htl in *. cbn in Hh0. inversion Hh0; subst h0'.
  apply Forall_cons in Hgrid as [[Hx Hy] _].
  destruct Hvel as [[_ Hnil]|[d Hd]]; [discriminate|].
  unfold velocity in Hd. cbn [tail_x tail_y].
  split; apply wrap_modulo; try assumption;
    destruct d; inversion Hd; lia.
Qed.


(** X2: what the keys do to the state.  In MENU and in LOSE the space bar
    starts a fresh game (six segments, score 0, moving right) and nothing
    else changes the state; while PLAYING the space bar does nothing and
    Escape leads to MENU only when no direction key is held. *)
Theorem X2_event_transitions (keys : KeyStates) (g : SnakeGame) :
  state (OnEvent rand keys g)
  = match state g with
    | MENU | LOSE => if keys SDL_SCANCODE_SPACE then PLAYING else state g
    | PLAYING =>
        match firstHeld keys with
        | Some _ => PLAYING
        | None => if keys SDL_SCANCODE_ESCAPE then MENU else PLAYING
        end
    | PAUSE => PAUSE
    end /\
  (state g = MENU \/ state g = LOSE -> keys SDL_SCANCODE_SPACE = true ->
   tailLength (OnEvent rand keys g) = 6%nat /\
   tail (OnEvent rand keys g) !! 0%nat = Some (mkTail 8 8) /\
   score (OnEvent rand keys g) = 0 /\
   velocity (OnEvent rand keys g) = (1, 0)) /\
  (state g = PLAYING ->
   tail (OnEvent rand keys g) = tail g /\
   tailLength (OnEvent rand keys g) = tailLength g /\
   score (OnEvent rand keys g) = score g /\
   appleCell (OnEvent rand keys g) = appleCell g).
Proof.
  rewrite firstHeld_cases. unfold OnEvent, OnEventMenu, OnEventPlaying, held.
  split; [|split].
  - destruct (state g) eqn:Hst;
      repeat match goal with
             | |- context [if ?b then _ else _] => destruct b
             end; cbn; congruence.
  - intros Hst Hspace.
    destruct Hst as [-> | ->]; rewrite Hspace; now repeat split.
  - intros ->.
    repeat match goal with
           | |- context [if ?b then _ else _] => destruct b
           end; now repeat split.
Qed.

(** X22: what the respawn search does guarantee.  After an eating step
    the score is one more, the new apple is on none of the first
    [tailLength] segments of the vector after the insertion (the new head
    and all old segments but the last), so it is never the cell where the
    apple was eaten, and [rand()] has been called an even number of times,
    at least twice. *)
Theorem X22_respawned_apple
    (g g' : SnakeGame) (fuel : nat) (deltaTime : Z) (drawn : list RenderCall) :
  reachable rand g -> state g = PLAYING ->
  stepDue deltaTime g = true -> newHead g = Some (appleCell g) ->
  OnUpdate rand fuel deltaTime g = Done (g', drawn) ->
  ~ In (appleCell g') (take (tailLength g) (tail g')) /\
  appleCell g' <> appleCell g /\
  score g' = score g + 1 /\
  exists k, randCalls g' = (randCalls g + 2 * S k)%nat.
Proof.
  intros Hreach Hst Hdue Hh Hrun.
  pose proof (reachable_consistent rand g Hreach) as [Hlen Hne].
  destruct (OnUpdate_cases _ _ _ _ _ (conj Hlen Hne) Hrun)
    as [[Hno _]|[(_ & Hnot & _)|(_ & _ & h & Hh' & Hstep)]];
    [congruence | congruence |].
  rewrite Hh in Hh'. inversion Hh'; subst h.
  destruct Hstep as [[Hoff _]|(_ & k & Hfree & ->)].
  { assert (isAt (apple_x g) (apple_y g) (appleCell g) = true) as Hon
      by now apply appleCell_isAt.
    congruence. }
  cbn [grownGame tail score randCalls].
  unfold freeCell in Hfree. apply negb_true_iff in Hfree.
  assert (~ In (mkTail (sample rand (randCalls g) k).1
                       (sample rand (randCalls g) k).2)
               (take (tailLength g) (appleCell g :: tail g))) as Hout.
  { intros Hin. apply existsb_isAt in Hin. congruence. }
  split; [exact Hout|]. split; [|split; [reflexivity | now exists k]].
  intros Hsame. apply Hout.
  unfold appleCell at 1 in Hsame. cbn [grownGame apple_x apple_y] in Hsame.
  rewrite Hsame.
  destruct (tailLength g) eqn:Hn.
  - exfalso. apply (Hne Hst). now apply length_zero_iff_nil.
  - now left.
Qed.

End Frames.

Lemma streamOntoTail_nonneg : forall i, 0 <= streamOntoTail i.
Proof. intros [|[|[|i]]]; cbn; lia. Qed.

Lemma X1_pause_unreachable_witness :
  state (started streamOntoTail) = MENU \/
  state (started streamOntoTail) = PLAYING \/
  state (started streamOntoTail) = LOSE.
Proof.
  apply (X1_pause_unreachable streamOntoTail (started streamOntoTail)).
  apply started_reachable.
Defined.

Lemma X3_snake_on_grid_witness :
  Forall onGrid (tail (started streamOntoTail)) /\ onGrid (mkTail 9 8).
Proof.
  destruct (X3_snake_on_grid streamOntoTail (started streamOntoTail)
              (started_reachable streamOntoTail)) as [Hgrid Hnext].
  split; [exact Hgrid | apply Hnext; reflexivity].
Defined.

Lemma X4_apple_on_grid_witness : onGrid (appleCell (started streamOntoTail)).
Proof.
  apply (X4_apple_on_grid streamOntoTail (started streamOntoTail)).
  - exact streamOntoTail_nonneg.
  - apply started_reachable.
Defined.

Lemma X5_score_counts_growth_witness :
  0 <= score (started streamOntoTail) /\
  (tail (started streamOntoTail) = [] /\ score (started streamOntoTail) = 0 \/
   Z.of_nat (tailLength (started streamOntoTail))
   = 6 + score (started streamOntoTail)).
Proof.
  apply (X5_score_counts_growth streamOntoTail (started streamOntoTail)).
  apply started_reachable.
Defined.

Lemma X6_velocity_is_unit_witness :
  isUnitVector (velocity (started streamOntoTail)).
Proof.
  destruct (X6_velocity_is_unit streamOntoTail (started streamOntoTail)
              (started_reachable streamOntoTail)) as [_ Hunit].
  apply Hunit. discriminate.
Defined.

Lemma X7_scheduler_bounds_witness :
  (inject_Z (movesPerformedThisSecond (started streamOntoTail))
   <= movesPerSecond)%Q.
Proof.
  destruct (X7_scheduler_bounds streamOntoTail (started streamOntoTail)
              (started_reachable streamOntoTail)) as (_ & Hmoves & _).
  exact Hmoves.
Defined.

Lemma X22_respawned_apple_witness :
  exists g' drawn,
    OnUpdate streamOntoTail 1 16 (started streamOntoTail) = Done (g', drawn) /\
    appleCell g' <> appleCell (started streamOntoTail) /\
    score g' = 1.
Proof.
  destruct (OnUpdate streamOntoTail 1 16 (started streamOntoTail))
    as [[g' drawn]| |] eqn:Hrun; try discriminate.
  exists g', drawn. split; [reflexivity|].
  destruct (X22_respawned_apple streamOntoTail (started streamOntoTail) g'
              1 16 drawn) as (_ & Hmoved & Hscore & _).
  - apply started_reachable.
  - reflexivity.
  - reflexivity.
  - reflexivity.
  - exact Hrun.
  - split; [exact Hmoved | exact Hscore].
Defined.

Lemma X8_head_moves_modulo_grid_witness :
  tail_x (mkTail 9 8) = (8 + 1) mod GRID_WIDTH /\
  tail_y (mkTail 9 8) = (8 + 0) mod GRID_HEIGHT.
Proof.
  apply (X8_head_moves_modulo_grid streamOntoTail (started streamOntoTail)
           (mkTail 8 8) (mkTail 9 8)).
  - apply started_reachable.
  - reflexivity.
  - reflexivity.
Defined.


End SnakeInvariants.

(** * The two variants of the game *)

Module VariantFacts.

Import Snake SnakeFacts.

Section Variants.

Variable rand : nat -> Z.

Lemma minimal_render_from (tl : list Tail) n : forall i drawn,
  (i + n <= length tl)%nat ->
  exists segs,
    for_from i n (fun i drawn =>
      seg ← vec_at tl i;
      mret (drawn ++ [SnakeMinimal.Draw
                        (Render snake_texture (tail_x seg * GRID_SIZE)
                                              (tail_y seg * GRID_SIZE))])) drawn
    = Done segs.
Proof.
  induction n as [|n IH]; intros i drawn Hlen; cbn [for_from].
  - eauto.
  - destruct (lookup_lt_is_Some_2 tl i) as [seg Hseg]; [lia|].
    rewrite (vec_at_Done _ _ _ Hseg). cbn. apply IH. lia.
Qed.

Lemma minimal_renderPlaying g :
  length (tail g) = tailLength g ->
  exists out, SnakeMinimal.renderPlaying g = Done out.
Proof.
  intros Hlen. unfold SnakeMinimal.renderPlaying, for_loop.
  destruct (minimal_render_from (tail g) (tailLength g) 0 []) as [segs ->];
    [lia|].
  cbn. eauto.
Qed.

(** X10: a PLAYING frame of the first variant computes the game of the
    scored variant's frame, except that it keeps the state (it has no LOSE)
    and the score; it returns exactly when the scored variant's frame
    does. *)
Theorem X10_variants_agree (fuel : nat) (deltaTime : Z) (g : SnakeGame) :
  consistent g -> state g = PLAYING ->
  match Snake.OnUpdatePlaying rand fuel deltaTime g with
  | Done (g1, _) =>
      exists out,
        SnakeMinimal.OnUpdatePlaying rand fuel deltaTime g
        = Done (SnakeMinimal.keeping g g1, out)
  | OutOfBounds => False
  | Diverges =>
      SnakeMinimal.OnUpdatePlaying rand fuel deltaTime g = Diverges
  end.
Proof.
  intros [Hlen Hne] Hst.
  destruct (newHead_some g (Hne Hst)) as [h Hh].
  destruct (newHead_cons g h Hh) as (h0 & rest & Htl & Hhead).
  unfold SnakeMinimal.OnUpdatePlaying.
  rewrite stepDue_scheduler.
  destruct (stepDue deltaTime g) eqn:Hdue.
  - unfold SnakeMinimal.simulationStep.
    change (tail (set_schedule _ _ g)) with (tail g).
    rewrite Htl. cbn [vec_at lookup list_lookup mbind outcome_bind].
    rewrite <- Htl.
    change (xVelocity (set_schedule _ _ g)) with (xVelocity g).
    change (yVelocity (set_schedule _ _ g)) with (yVelocity g).
    rewrite <- Hhead. cbn [apple_x apple_y set_schedule].
    fold (isAt (apple_x g) (apple_y g) h).
    destruct (isAt (apple_x g) (apple_y g) h) eqn:Happle.
    + rewrite (frame_eat _ _ _ _ h) by assumption.
      cbn [tailLength randCalls].
      destruct (respawnApple _ _ _ _ _) as [[[ax ay] calls]| |] eqn:Hspawn.
      * cbn [mbind outcome_bind].
        match goal with
        | |- context [SnakeMinimal.renderPlaying ?g1] =>
            destruct (minimal_renderPlaying g1) as [out ->];
              [cbn; now rewrite Hlen|]
        end.
        cbn. eexists. reflexivity.
      * pose proof (respawnApple_result rand (h :: tail g) (tailLength g)
                      ltac:(cbn; lia) fuel (randCalls g)) as Hres.
        now rewrite Hspawn in Hres.
      * reflexivity.
    + rewrite (frame_move _ _ _ _ h) by assumption.
      cbn [mbind outcome_bind].
      match goal with
      | |- context [SnakeMinimal.renderPlaying ?g1] =>
          destruct (minimal_renderPlaying g1) as [out ->];
            [cbn [tail tailLength]; now rewrite removelast_cons_length|]
      end.
      cbn. eexists. reflexivity.
  - rewrite frame_idle by assumption. cbn [mbind outcome_bind].
    match goal with
    | |- context [SnakeMinimal.renderPlaying ?g1] =>
        destruct (minimal_renderPlaying g1) as [out ->]; [exact Hlen|]
    end.
    cbn. eexists. reflexivity.
Qed.

Lemma minimal_step_state fuel g g' played :
  SnakeMinimal.simulationStep rand fuel g = Done (g', played) ->
  state g' = state g.
Proof.
  unfold SnakeMinimal.simulationStep. intros Hrun.
  repeat match type of Hrun with
         | context [mbind _ ?m] =>
             destruct m; cbn [mbind outcome_bind] in Hrun; try discriminate
         | context [if ?b then _ else _] => destruct b
         | context [match ?t with _ => _ end] => is_var t; destruct t
         end;
    now inversion Hrun.
Qed.

Lemma minimal_update_state fuel deltaTime g g' out :
  SnakeMinimal.OnUpdate rand fuel deltaTime g = Done (g', out) ->
  state g' = state g.
Proof.
  unfold SnakeMinimal.OnUpdate, SnakeMinimal.OnUpdatePlaying. intros Hrun.
  destruct (state g) eqn:Hst; try (now inversion Hrun; subst).
  destruct (moveScheduler _ _ _) as [[due moves] acc].
  destruct due.
  - destruct (SnakeMinimal.simulationStep _ _ _) as [[g1 played]| |] eqn:Hstep;
      cbn [mbind outcome_bind] in Hrun; try discriminate.
    destruct (SnakeMinimal.renderPlaying g1); cbn in Hrun; inversion Hrun; subst.
    rewrite (minimal_step_state _ _ _ _ Hstep). exact Hst.
  - cbn [mbind outcome_bind] in Hrun.
    destruct (SnakeMinimal.renderPlaying _); cbn in Hrun; inversion Hrun; subst.
    exact Hst.
Qed.

(** X9: the first variant of the game cannot be lost: no update changes
    the state, so the game is only ever in MENU or PLAYING, and a direction
    key turns the snake whatever its velocity, also straight back. *)
Theorem X9_first_variant_never_lost (g : SnakeGame) :
  SnakeMinimal.reachable rand g ->
  (state g = MENU \/ state g = PLAYING) /\
  (forall fuel deltaTime g' out,
     SnakeMinimal.OnUpdate rand fuel deltaTime g = Done (g', out) ->
     state g' = state g) /\
  (forall d, velocity (SnakeMinimal.OnEventPlaying (only d) g) = unitVector d).
Proof.
  intros Hreach. split; [|split].
  - induction Hreach as [|g keys Hreach IH|g fuel deltaTime g' out Hreach IH Hrun].
    + now left.
    + unfold SnakeMinimal.OnEvent, SnakeMinimal.OnEventMenu,
        SnakeMinimal.OnEventPlaying.
      destruct IH as [Hst|Hst]; rewrite Hst;
        repeat match goal with
               | |- context [if ?b then _ else _] => destruct b
               end; cbn; tauto.
    + now rewrite (minimal_update_state _ _ _ _ _ Hrun).
  - intros fuel deltaTime g' out. apply minimal_update_state.
  - now intros [].
Qed.

End Variants.

Lemma X10_variants_agree_witness :
  exists g1 drawn out,
    Snake.OnUpdatePlaying streamOntoTail 1 16 (started streamOntoTail)
    = Done (g1, drawn) /\
    SnakeMinimal.OnUpdatePlaying streamOntoTail 1 16 (started streamOntoTail)
    = Done (SnakeMinimal.keeping (started streamOntoTail) g1, out).
Proof.
  pose proof (X10_variants_agree streamOntoTail 1 16 (started streamOntoTail))
    as Hagree.
  destruct (Snake.OnUpdatePlaying streamOntoTail 1 16 (started streamOntoTail))
    as [[g1 drawn]| |] eqn:Hrun; try discriminate.
  destruct Hagree as [out Hout].
  - split; [reflexivity | discriminate].
  - reflexivity.
  - exists g1, drawn, out. split; [reflexivity | exact Hout].
Defined.

Lemma X9_first_variant_never_lost_witness :
  state (SnakeMinimal.OnEvent streamOntoTail pressSpace initial) = MENU \/
  state (SnakeMinimal.OnEvent streamOntoTail pressSpace initial) = PLAYING.
Proof.
  destruct (X9_first_variant_never_lost streamOntoTail
              (SnakeMinimal.OnEvent streamOntoTail pressSpace initial))
    as (Hstate & _).
  - apply SnakeMinimal.reach_event, SnakeMinimal.reach_initial.
  - exact Hstate.
Defined.


End VariantFacts.

(** * The frame rate counter *)

Module FrameRateFacts.

Import FrameRate.

Lemma OnUpdate_quiet t fr :
  elapsed fr t < 1000 ->
  OnUpdate t fr
  = ({| timeStampOfBeginingOfSecond := timeStampOfBeginingOfSecond fr;
        currentSecondsFrameCount := currentSecondsFrameCount fr + 1;
        currentFramesPerSecond := currentFramesPerSecond fr |}, 0).
Proof.
  unfold OnUpdate, elapsed. intros H.
  destruct (Z.leb_spec 1000 ((t - timeStampOfBeginingOfSecond fr) mod 2 ^ 32));
    [lia|reflexivity].
Qed.

Lemma OnUpdate_sample t fr :
  1000 <= elapsed fr t ->
  OnUpdate t fr
  = ({| timeStampOfBeginingOfSecond := t;
        currentSecondsFrameCount := 0;
        currentFramesPerSecond := currentSecondsFrameCount fr + 1 |},
     currentSecondsFrameCount fr + 1).
Proof.
  unfold OnUpdate, elapsed. intros H.
  destruct (Z.leb_spec 1000 ((t - timeStampOfBeginingOfSecond fr) mod 2 ^ 32));
    [reflexivity|lia].
Qed.

(** X11: the counter reports the frames of a window.  Frames that come
    less than 1000 ms after the start of the window return 0 and leave the
    published rate alone; the first frame at 1000 ms or more returns the
    number of frames counted since the window began, itself included,
    publishes it, and starts the next window at its own tick count. *)
Theorem X11_frames_of_a_window (quiet : list Z) (t : Z) (fr : FrameRate) :
  Forall (fun q => elapsed fr q < 1000) quiet ->
  1000 <= elapsed fr t ->
  0 <= currentSecondsFrameCount fr ->
  let frames := currentSecondsFrameCount fr + Z.of_nat (length quiet) + 1 in
  runFrames (quiet ++ [t]) fr
  = ({| timeStampOfBeginingOfSecond := t;
        currentSecondsFrameCount := 0;
        currentFramesPerSecond := frames |},
     repeat 0 (length quiet) ++ [frames]) /\
  frames <> 0 /\
  (runFrames quiet fr).1.(currentFramesPerSecond) = currentFramesPerSecond fr.
Proof.
  revert fr. induction quiet as [|q quiet IH]; intros fr Hquiet Ht Hcount frames.
  - cbn [runFrames app length repeat]. rewrite OnUpdate_sample by assumption.
    subst frames. cbn. repeat split; try lia. do 2 f_equal; lia.
  - apply Forall_cons in Hquiet as [Hq Hquiet].
    cbn [runFrames app]. rewrite OnUpdate_quiet by assumption.
    set (fr1 := {| timeStampOfBeginingOfSecond := timeStampOfBeginingOfSecond fr;
                   currentSecondsFrameCount := currentSecondsFrameCount fr + 1;
                   currentFramesPerSecond := currentFramesPerSecond fr |}).
    destruct (IH fr1) as (Hrun & _ & Hfps).
    + exact Hquiet.
    + exact Ht.
    + cbn. lia.
    + rewrite Hrun. subst frames. cbn [length repeat app].
      cbn [currentSecondsFrameCount fr1].
      replace (currentSecondsFrameCount fr + 1 + Z.of_nat (length quiet) + 1)
        with (currentSecondsFrameCount fr + Z.of_nat (S (length quiet)) + 1)
        by lia.
      split; [reflexivity|]. split; [lia|].
      destruct (runFrames quiet fr1) as [fr2 vs]. exact Hfps.
Qed.

Lemma X11_frames_of_a_window_witness :
  runFrames ([5016; 5033; 5999] ++ [6000]) (newFrameRate 5000)
  = ({| timeStampOfBeginingOfSecond := 6000;
        currentSecondsFrameCount := 0;
        currentFramesPerSecond := 4 |}, [0; 0; 0; 4]).
Proof.
  destruct (X11_frames_of_a_window [5016; 5033; 5999] 6000 (newFrameRate 5000))
    as (Hrun & _).
  - repeat constructor.
  - vm_compute. congruence.
  - vm_compute. congruence.
  - exact Hrun.
Defined.

(** X12: the window survives the wrap-around of the tick counter: a frame
    [d] ms after the start of the window (tick counts are taken modulo
    [2^32]) publishes a rate exactly when [d] is at least 1000. *)
Theorem X12_window_across_wraparound (d : Z) (fr : FrameRate) :
  0 <= d < 2 ^ 32 ->
  OnUpdate ((timeStampOfBeginingOfSecond fr + d) mod 2 ^ 32) fr
  = if 1000 <=? d
    then ({| timeStampOfBeginingOfSecond :=
               (timeStampOfBeginingOfSecond fr + d) mod 2 ^ 32;
             currentSecondsFrameCount := 0;
             currentFramesPerSecond := currentSecondsFrameCount fr + 1 |},
          currentSecondsFrameCount fr + 1)
    else ({| timeStampOfBeginingOfSecond := timeStampOfBeginingOfSecond fr;
             currentSecondsFrameCount := currentSecondsFrameCount fr + 1;
             currentFramesPerSecond := currentFramesPerSecond fr |}, 0).
Proof.
  intros Hd.
  assert (elapsed fr ((timeStampOfBeginingOfSecond fr + d) mod 2 ^ 32) = d)
    as Helapsed.
  { unfold elapsed. rewrite Zminus_mod_idemp_l.
    replace (timeStampOfBeginingOfSecond fr + d - timeStampOfBeginingOfSecond fr)
      with d by lia.
    apply Z.mod_small. exact Hd. }
  destruct (Z.leb_spec 1000 d).
  - apply OnUpdate_sample. lia.
  - apply OnUpdate_quiet. lia.
Qed.

Lemma X12_window_across_wraparound_witness :
  (OnUpdate 704 (newFrameRate (2 ^ 32 - 296))).2 = 1.
Proof.
  pose proof (X12_window_across_wraparound 1000 (newFrameRate (2 ^ 32 - 296))
                ltac:(vm_compute; split; congruence)) as H.
  change ((timeStampOfBeginingOfSecond (newFrameRate (2 ^ 32 - 296)) + 1000)
            mod 2 ^ 32) with 704 in H.
  rewrite H. reflexivity.
Defined.

End FrameRateFacts.

(** * Further properties of the particle emitter *)

Module EmitterFacts.

Import Particles ParticleFacts.

Lemma Qtrunc_comp (q q' : Q) : (q == q')%Q -> Qtrunc q = Qtrunc q'.
Proof.
  intros Hq. unfold Qtrunc.
  now rewrite (Qleb_comp 0%Q 0%Q (Qeq_refl 0%Q) _ _ Hq),
    (Qfloor_comp _ _ Hq), (Qceiling_comp _ _ Hq).
Qed.

Lemma Qtrunc_whole (q : Q) (z : Z) : (q == inject_Z z)%Q -> Qtrunc q = z.
Proof.
  intros Hq. rewrite (Qtrunc_comp _ _ Hq). unfold Qtrunc.
  rewrite Qfloor_Z, Qceiling_Z.
  now destruct (Qle_bool 0 (inject_Z z)).
Qed.

Lemma toInt_whole (q : Q) (z : Z) :
  (q == inject_Z z)%Q -> INT_MIN <= z <= INT_MAX -> toInt q = z.
Proof.
  intros Hq Hz. rewrite toInt_in_range; rewrite (Qtrunc_whole _ _ Hq);
    [reflexivity|exact Hz].
Qed.

Lemma Qfloor_thousandth (z : Z) : Qfloor (inject_Z z / 1000) = z / 1000.
Proof.
  unfold Qdiv, Qmult, Qinv, inject_Z, Qfloor. cbn. now rewrite Z.mul_1_r.
Qed.

Section Emitter.

Variable rand : nat -> Z.
Variable RAND_MAX : Z.

(** ** The ring of slots *)

Lemma createParticle_lastSlotFree n s s' :
  lastSlotFree n s -> createParticle rand RAND_MAX s = Done s' ->
  lastSlotFree n s'.
Proof.
  intros (Hmax & Hsized & Hidx & Hlast) Hrun.
  pose proof (createParticle_sized rand RAND_MAX s s' Hsized Hrun) as Hsized'.
  unfold createParticle in Hrun.
  destruct (vec_at _ _); cbn [mbind outcome_bind] in Hrun; inversion Hrun;
    subst s'; clear Hrun.
  split; [exact Hmax|]. split; [exact Hsized'|]. cbn. split.
  - rewrite Hmax.
    destruct (Z.ltb_spec (Z.of_nat n - 2)
                (Z.of_nat (S (currentParticlePoolIndex s)))); lia.
  - rewrite list_lookup_insert_ne by lia. exact Hlast.
Qed.

Lemma OnUpdate_lastSlotFree n deltaTime ticks e e' drawn :
  lastSlotFree n e ->
  OnUpdate rand RAND_MAX deltaTime ticks e = Done (e', drawn) ->
  lastSlotFree n e'.
Proof.
  intros Hfree Hrun.
  destruct (active e) eqn:Hactive.
  - destruct Hfree as (Hmax & Hsized & Hrest).
    destruct (OnUpdate_phases rand RAND_MAX _ _ _ _ _ Hsized Hactive Hrun)
      as (e1 & Hcreate & Hsized1 & -> & _).
    destruct (createDue_invariant rand RAND_MAX (lastSlotFree n) ticks e e1
                (createParticle_lastSlotFree n)
                (conj Hmax (conj Hsized Hrest)) Hcreate)
      as (Hmax1 & _ & Hidx1 & Hlast1).
    split; [exact Hmax1|]. split; [|split; [exact Hidx1|]].
    + unfold poolSized in *. cbn. now rewrite length_fmap.
    + cbn. rewrite list_lookup_fmap, Hlast1. reflexivity.
  - unfold OnUpdate in Hrun. rewrite Hactive in Hrun. cbn in Hrun.
    now inversion Hrun; subst.
Qed.

(** X13: the ring never reaches the last slot.  In an emitter made with a
    pool of [n >= 2] slots the slot [n - 1] is never written, whatever the
    updates: it still holds the particle the constructor put there, and at
    most [n - 1] particles are active. *)
Theorem X13_last_slot_never_used
    (ticks : Z) (x0 y0 life sp : Q) (rate : Z) (n : nat)
    (inputs : list (Q * Z)) (e' : ParticleEmitter) :
  (2 <= n)%nat ->
  runUpdates rand RAND_MAX inputs (newEmitter ticks x0 y0 life sp rate n)
    = Done e' ->
  particlePool e' !! (n - 1)%nat = Some noParticle /\
  (currentParticlePoolIndex e' < n - 1)%nat /\
  (activeCount (particlePool e') <= n - 1)%nat.
Proof.
  intros Hn Hrun.
  assert (lastSlotFree n (newEmitter ticks x0 y0 life sp rate n)) as Hnew.
  { split; [reflexivity|]. split; [apply length_replicate|].
    split; [cbn; lia|]. cbn. apply lookup_replicate_2. lia. }
  destruct (runUpdates_invariant rand RAND_MAX (lastSlotFree n) (fun _ => True)
              (fun deltaTime ticks0 e0 e1 drawn _ =>
                 OnUpdate_lastSlotFree n deltaTime ticks0 e0 e1 drawn)
              inputs _ e' ltac:(now apply Forall_forall) Hnew Hrun)
    as (Hmax & Hsized & Hidx & Hlast).
  split; [exact Hlast|]. split; [lia|].
  unfold activeCount, poolSized in *.
  rewrite <- (take_drop (n - 1) (particlePool e')), filter_app, length_app.
  rewrite (drop_S _ _ _ Hlast), drop_ge by lia.
  rewrite filter_cons, decide_False by (cbn; discriminate). cbn.
  pose proof (length_filter (fun p => p_active p = true)
                (take (n - 1) (particlePool e'))) as Hfilter.
  rewrite length_take in Hfilter. lia.
Qed.

(** ** A new particle *)

(** X14: a particle is created active, at the emitter's position, with the
    emitter's life time as total and remaining life time; when [rand()]
    returns values from 0 to a positive [RAND_MAX], both components of its
    velocity lie between -1 and 1. *)
Theorem X14_new_particle (e e' : ParticleEmitter) :
  0 < RAND_MAX ->
  (forall i, 0 <= rand i <= RAND_MAX) ->
  createParticle rand RAND_MAX e = Done e' ->
  exists p,
    particlePool e' !! currentParticlePoolIndex e = Some p /\
    p_active p = true /\
    p_x p = x e /\ p_y p = y e /\
    lifeTimeRemaining p = lifeInMiliseconds e /\
    totalLifeTime p = lifeInMiliseconds e /\
    (-1 <= p_xVelocity p <= 1)%Q /\ (-1 <= p_yVelocity p <= 1)%Q.
Proof.
  intros Hmax Hrand Hrun. unfold createParticle, vec_at in Hrun.
  destruct (particlePool e !! currentParticlePoolIndex e) as [old|] eqn:Hold;
    cbn [mbind outcome_bind] in Hrun; inversion Hrun; subst e'; clear Hrun.
  eexists. cbn [particlePool]. split.
  { apply list_lookup_insert_eq. now apply lookup_lt_Some in Hold. }
  cbn. repeat split; try reflexivity.
  all: match goal with
       | |- context [rand ?i] => specialize (Hrand i)
       end.
  all: assert (0 < inject_Z RAND_MAX)%Q as Hpos
         by (change 0%Q with (inject_Z 0); now rewrite <- Zlt_Qlt).
  all: assert (0 < inject_Z RAND_MAX / 2)%Q as Hhalf
         by (apply Qlt_shift_div_l; [reflexivity|lra]).
  all: destruct Hrand as [Hlow Hhigh];
       rewrite Zle_Qle in Hlow; rewrite Zle_Qle in Hhigh;
       change (inject_Z 0) with 0%Q in Hlow.
  - enough (0 <= inject_Z (rand (randCalls e)) / (inject_Z RAND_MAX / 2))%Q
      by lra.
    apply Qle_shift_div_l; [exact Hhalf|]. lra.
  - enough (inject_Z (rand (randCalls e)) / (inject_Z RAND_MAX / 2) <= 2)%Q
      by lra.
    apply Qle_shift_div_r; [exact Hhalf|].
    assert (2 * (inject_Z RAND_MAX / 2) == inject_Z RAND_MAX)%Q as ->
      by field. exact Hhigh.
  - enough (0 <= inject_Z (rand (S (randCalls e))) / (inject_Z RAND_MAX / 2))%Q
      by lra.
    apply Qle_shift_div_l; [exact Hhalf|]. lra.
  - enough (inject_Z (rand (S (randCalls e))) / (inject_Z RAND_MAX / 2) <= 2)%Q
      by lra.
    apply Qle_shift_div_r; [exact Hhalf|].
    assert (2 * (inject_Z RAND_MAX / 2) == inject_Z RAND_MAX)%Q as ->
      by field. exact Hhigh.
Qed.

(** ** How many particles are created *)

Lemma create_loop_counts n : forall i e e',
  for_from i n (fun _ e0 => createParticle rand RAND_MAX e0) e = Done e' ->
  (particlesCreatedThisSecond e'
   == particlesCreatedThisSecond e + inject_Z (Z.of_nat n))%Q /\
  randCalls e' = (randCalls e + 2 * n)%nat /\
  startOfSecond e' = startOfSecond e /\
  newParticlesPerSecond e' = newParticlesPerSecond e.
Proof.
  induction n as [|n IH]; intros i e e' Hrun; cbn [for_from] in Hrun.
  - inversion Hrun; subst. cbn. repeat split; try lia. ring.
  - destruct (createParticle rand RAND_MAX e) as [e1| |] eqn:Hstep;
      cbn [mbind outcome_bind] in Hrun; try discriminate.
    destruct (IH _ _ _ Hrun) as (Hcount & Hcalls & Hstart & Hrate).
    unfold createParticle in Hstep.
    destruct (vec_at _ _); cbn [mbind outcome_bind] in Hstep;
      inversion Hstep; subst e1; clear Hstep.
    cbn in Hcount, Hcalls, Hstart, Hrate.
    repeat split; try assumption; try lia.
    rewrite Hcount, Nat2Z.inj_succ, <- Z.add_1_l, inject_Z_plus. ring.
Qed.

(** X15: the emitter counts its particles against the time since it was
    made, in a window that is never started anew.  With whole tick counts
    below 2^24, a whole counter [c] below 2^24, a rate that is not negative
    and [(ticks - startOfSecond) * newParticlesPerSecond] below 2^24, where
    the float32 arithmetic of the count is exact, the number wanted at tick
    [ticks] is [(ticks - startOfSecond) * newParticlesPerSecond / 1000]
    rounded down, and an update creates particles until the counter is the
    larger of [c] and that number, two [rand()] calls each, and leaves
    [startOfSecond] as it is. *)
Theorem X15_creation_catches_up
    (deltaTime : Q) (ticks start c : Z) (e e' : ParticleEmitter)
    (drawn : list RenderCall) :
  poolSized e -> active e = true ->
  (startOfSecond e == inject_Z start)%Q ->
  (particlesCreatedThisSecond e == inject_Z c)%Q ->
  0 <= start <= ticks -> ticks < 2 ^ 24 ->
  0 <= c < 2 ^ 24 ->
  0 <= newParticlesPerSecond e ->
  (ticks - start) * newParticlesPerSecond e < 2 ^ 24 ->
  OnUpdate rand RAND_MAX deltaTime ticks e = Done (e', drawn) ->
  targetCount ticks e = (ticks - start) * newParticlesPerSecond e / 1000 /\
  (particlesCreatedThisSecond e'
   == inject_Z (Z.max c (targetCount ticks e)))%Q /\
  randCalls e'
  = (randCalls e + 2 * Z.to_nat (Z.max c (targetCount ticks e) - c))%nat /\
  startOfSecond e' = startOfSecond e.
Proof.
  intros Hsized Hactive Hs Hc Hticks Hbound Hcount Hrate Hprod Hrun.
  assert (0 <= (ticks - start) * newParticlesPerSecond e) as Hnonneg by nia.
  assert (0 <= (ticks - start) * newParticlesPerSecond e / 1000 < 2 ^ 24)
    as Hrange.
  { split; [apply Z.div_pos; lia|].
    apply Z.div_lt_upper_bound; lia. }
  assert (targetCount ticks e
          = (ticks - start) * newParticlesPerSecond e / 1000) as Htarget.
  { unfold targetCount.
    assert ((inject_Z ticks - startOfSecond e)
            * inject_Z (newParticlesPerSecond e) / 1000
            == inject_Z ((ticks - start) * newParticlesPerSecond e) / 1000)%Q
      as Hq.
    { rewrite Hs. unfold Zminus.
      rewrite inject_Z_mult, inject_Z_plus, inject_Z_opp. unfold Qdiv. ring. }
    assert (Qtrunc ((inject_Z ticks - startOfSecond e)
                    * inject_Z (newParticlesPerSecond e) / 1000)
            = (ticks - start) * newParticlesPerSecond e / 1000) as Htrunc.
    { rewrite (Qtrunc_comp _ _ Hq), Qtrunc_nonneg.
      - apply Qfloor_thousandth.
      - apply Qle_shift_div_l; [reflexivity|].
        rewrite Qmult_0_l. change 0%Q with (inject_Z 0).
        now rewrite <- Zle_Qle. }
    rewrite toInt_in_range; rewrite Htrunc; [reflexivity|].
    unfold INT_MIN, INT_MAX. lia. }
  split; [exact Htarget|].
  rewrite <- Htarget in Hrange. clear Htarget.
  destruct (OnUpdate_phases rand RAND_MAX _ _ _ _ _ Hsized Hactive Hrun)
    as (e1 & Hcreate & _ & -> & _).
  cbn [set_pool particlesCreatedThisSecond randCalls startOfSecond].
  unfold createDue in Hcreate.
  destruct (Qltb _ _) eqn:Hdue.
  - apply SnakeFacts.Qltb_lt in Hdue. rewrite Hc, <- Zlt_Qlt in Hdue.
    rewrite (toInt_whole _ (targetCount ticks e - c)) in Hcreate;
      [| rewrite Hc; unfold Zminus; rewrite inject_Z_plus, inject_Z_opp; ring
       | unfold INT_MIN, INT_MAX; lia].
    destruct (create_loop_counts _ _ _ _ Hcreate)
      as (Hcreated & Hcalls & Hstart & _).
    rewrite Z.max_r by lia.
    split; [|split; [exact Hcalls | exact Hstart]].
    rewrite Hcreated, Hc, Z2Nat.id by lia.
    unfold Zminus. rewrite inject_Z_plus, inject_Z_opp. ring.
  - apply not_true_iff_false in Hdue. rewrite SnakeFacts.Qltb_lt in Hdue.
    apply Qnot_lt_le in Hdue. rewrite Hc, <- Zle_Qle in Hdue.
    inversion Hcreate; subst e1.
    rewrite Z.max_l by lia. rewrite Z.sub_diag.
    split; [exact Hc|]. split; [cbn; lia | reflexivity].
Qed.

(** ** What is rendered *)

Lemma createParticle_lifeBounded s s' :
  (lifeInMiliseconds s <= maxLifeTime)%Q /\ lifeBounded (particlePool s) ->
  createParticle rand RAND_MAX s = Done s' ->
  (lifeInMiliseconds s' <= maxLifeTime)%Q /\ lifeBounded (particlePool s').
Proof.
  intros [Hlife Hpool] Hrun. unfold createParticle in Hrun.
  destruct (vec_at _ _); cbn [mbind outcome_bind] in Hrun; inversion Hrun;
    subst s'; clear Hrun.
  cbn [particlePool lifeInMiliseconds]. split; [exact Hlife|].
  apply Forall_insert; [exact Hpool|].
  cbn. intros _. split; [apply Qle_refl | exact Hlife].
Qed.

Lemma updateParticle_alive deltaTime sp p :
  (0 <= deltaTime)%Q ->
  (p_active p = true ->
   (lifeTimeRemaining p <= totalLifeTime p)%Q /\
   (totalLifeTime p <= maxLifeTime)%Q) ->
  p_active (updateParticle deltaTime sp p) = true ->
  (0 < lifeTimeRemaining (updateParticle deltaTime sp p))%Q /\
  (lifeTimeRemaining (updateParticle deltaTime sp p)
   <= totalLifeTime (updateParticle deltaTime sp p))%Q /\
  (totalLifeTime (updateParticle deltaTime sp p) <= maxLifeTime)%Q.
Proof.
  intros Hdt Hbound Halive.
  destruct (p_active p) eqn:Hact.
  - destruct (updateParticle_active deltaTime sp p Hact) as (Ha & -> & ->).
    rewrite Ha, negb_true_iff, <- not_true_iff_false, Qle_bool_iff in Halive.
    apply Qnot_le_lt in Halive. destruct (Hbound eq_refl) as [Hrem Htotal].
    repeat split; lra.
  - rewrite (updateParticle_inactive deltaTime sp p Hact) in Halive. congruence.
Qed.

Lemma OnUpdate_lifeBounded deltaTime ticks e e' drawn :
  (0 <= deltaTime)%Q ->
  poolSized e /\ (lifeInMiliseconds e <= maxLifeTime)%Q /\
  lifeBounded (particlePool e) ->
  OnUpdate rand RAND_MAX deltaTime ticks e = Done (e', drawn) ->
  (poolSized e' /\ (lifeInMiliseconds e' <= maxLifeTime)%Q /\
   lifeBounded (particlePool e')) /\
  (active e = true ->
   Forall (fun p => p_active p = true ->
                    (0 < lifeTimeRemaining p)%Q /\
                    (lifeTimeRemaining p <= totalLifeTime p)%Q /\
                    (totalLifeTime p <= maxLifeTime)%Q)
          (particlePool e')).
Proof.
  intros Hdt (Hsized & Hlife & Hpool) Hrun.
  destruct (active e) eqn:Hactive.
  - destruct (OnUpdate_phases rand RAND_MAX _ _ _ _ _ Hsized Hactive Hrun)
      as (e1 & Hcreate & Hsized1 & -> & _).
    destruct (createDue_invariant rand RAND_MAX
                (fun s => (lifeInMiliseconds s <= maxLifeTime)%Q /\
                          lifeBounded (particlePool s))
                ticks e e1 createParticle_lifeBounded (conj Hlife Hpool)
                Hcreate)
      as [Hlife1 Hpool1].
    assert (Forall (fun p => p_active p = true ->
                      (0 < lifeTimeRemaining p)%Q /\
                      (lifeTimeRemaining p <= totalLifeTime p)%Q /\
                      (totalLifeTime p <= maxLifeTime)%Q)
              (updateParticle deltaTime (speed e1) <$> particlePool e1))
      as Halive.
    { apply Forall_fmap. eapply Forall_impl; [exact Hpool1|].
      intros p Hp. cbn. now apply updateParticle_alive. }
    split; [split; [|split]|intros _; exact Halive].
    + unfold poolSized in *. cbn. now rewrite length_fmap.
    + exact Hlife1.
    + cbn [set_pool particlePool]. eapply Forall_impl; [exact Halive|].
      intros p Hp Hact. destruct (Hp Hact) as (_ & Hrem & Htotal). now split.
  - unfold OnUpdate in Hrun. rewrite Hactive in Hrun. cbn in Hrun.
    inversion Hrun; subst. split; [now repeat split | discriminate].
Qed.

(** X17: with delta times that are not negative and a life time of at most
    2^23 ms, within which [255 * remaining] is an [int], every render call
    of an emitter has an alpha from 0 to 255, and there is one call for each
    active particle. *)
Theorem X17_rendered_alpha_in_range
    (ticks0 : Z) (x0 y0 life sp : Q) (rate : Z) (n : nat)
    (inputs : list (Q * Z)) (deltaTime : Q) (ticks : Z)
    (e e' : ParticleEmitter) (drawn : list RenderCall) :
  (life <= maxLifeTime)%Q ->
  Forall (fun i => (0 <= i.1)%Q) inputs -> (0 <= deltaTime)%Q ->
  runUpdates rand RAND_MAX inputs (newEmitter ticks0 x0 y0 life sp rate n)
    = Done e ->
  OnUpdate rand RAND_MAX deltaTime ticks e = Done (e', drawn) ->
  Forall (fun r => 0 <= r_alpha r <= 255) drawn /\
  length drawn = activeCount (particlePool e').
Proof.
  intros Hlife Hinputs Hdt Hrun Hupdate.
  assert (poolSized e /\ (lifeInMiliseconds e <= maxLifeTime)%Q /\
          lifeBounded (particlePool e)) as He.
  { eapply (runUpdates_invariant rand RAND_MAX
              (fun s => poolSized s /\
                        (lifeInMiliseconds s <= maxLifeTime)%Q /\
                        lifeBounded (particlePool s))
              (fun i => (0 <= i.1)%Q));
      [|exact Hinputs| |exact Hrun].
    - intros dt t s s' out Hpos Hs Hstep.
      now apply (OnUpdate_lifeBounded dt t s s' out Hpos Hs Hstep).
    - split; [apply length_replicate|]. split; [exact Hlife|].
      cbn. apply Forall_replicate. discriminate. }
  destruct (OnUpdate_lifeBounded _ _ _ _ _ Hdt He Hupdate) as [_ Halive].
  destruct (active e) eqn:Hactive.
  - destruct (OnUpdate_phases rand RAND_MAX _ _ _ _ _ (proj1 He) Hactive
                Hupdate)
      as (e1 & _ & _ & _ & ->).
    split; [|unfold activeCount; now rewrite length_fmap].
    apply Forall_fmap, Forall_forall. intros p Hp.
    apply list_elem_of_filter in Hp as [Hact Hin].
    pose proof (proj1 (Forall_forall _ _) (Halive eq_refl) p Hin Hact)
      as (Hlow & Hhigh & Htotal).
    cbn. apply alphaOf_in_range; [|split|]; lra.
  - unfold OnUpdate in Hupdate. rewrite Hactive in Hupdate. cbn in Hupdate.
    inversion Hupdate; subst.
    split; [constructor|].
    (* an emitter is made active and no update changes that *)
    exfalso.
    assert (active e' = true) as Hon; [|congruence].
    eapply (runUpdates_invariant rand RAND_MAX
              (fun s => poolSized s /\ active s = true)
              (fun _ => True)); [| | |exact Hrun].
    + intros dt t s s' out _ [Hs Hon] Hstep.
      destruct (OnUpdate_phases rand RAND_MAX _ _ _ _ _ Hs Hon Hstep)
        as (s1 & Hcreate & Hs1 & -> & _).
      split; [unfold poolSized in *; cbn; now rewrite length_fmap|].
      cbn. eapply (createDue_invariant rand RAND_MAX
                     (fun s0 => active s0 = true));
        [|exact Hon|exact Hcreate].
      intros a b Ha Hb. unfold createParticle in Hb.
      destruct (vec_at _ _); cbn in Hb; inversion Hb; subst. exact Ha.
    + now apply Forall_forall.
    + split; [apply length_replicate|reflexivity].
Qed.

End Emitter.

Lemma X13_last_slot_never_used_witness :
  exists e',
    runUpdates zeroStream 32767 [(1%Q, 1000); (1%Q, 2000)]
               (newEmitter 0 0 0 1000 (1 # 2) 5 3) = Done e' /\
    particlePool e' !! 2%nat = Some noParticle /\
    (activeCount (particlePool e') <= 2)%nat.
Proof.
  destruct (runUpdates_returns zeroStream 32767 [(1%Q, 1000); (1%Q, 2000)]
              (newEmitter 0 0 0 1000 (1 # 2) 5 3)) as [e' Hrun].
  { split; [reflexivity | cbn; lia]. }
  exists e'. split; [exact Hrun|].
  destruct (X13_last_slot_never_used zeroStream 32767 0 0 0 1000 (1 # 2) 5 3
              [(1%Q, 1000); (1%Q, 2000)] e' ltac:(lia) Hrun) as (Hlast & _ & Hcount).
  now split.
Defined.

Lemma X14_new_particle_witness :
  exists e' p,
    createParticle zeroStream 32767 slowFade = Done e' /\
    particlePool e' !! 0%nat = Some p /\
    (-1 <= p_xVelocity p <= 1)%Q.
Proof.
  destruct (createParticle zeroStream 32767 slowFade) as [e'| |] eqn:Hrun;
    try discriminate.
  destruct (X14_new_particle zeroStream 32767 slowFade e') as (p & Hp & Hrest).
  - reflexivity.
  - intros i. vm_compute. split; congruence.
  - exact Hrun.
  - exists e', p. split; [reflexivity|]. split; [exact Hp|].
    apply Hrest.
Defined.

Lemma X15_creation_catches_up_witness :
  exists e' drawn,
    OnUpdate zeroStream 32767 1 2500 slowFade = Done (e', drawn) /\
    targetCount 2500 slowFade = 2 /\
    (particlesCreatedThisSecond e' == 2)%Q /\
    randCalls e' = 4%nat.
Proof.
  destruct (OnUpdate zeroStream 32767 1 2500 slowFade) as [[e' drawn]| |]
    eqn:Hrun; try discriminate.
  destruct (X15_creation_catches_up zeroStream 32767 1 2500 0 0 slowFade
              e' drawn)
    as (Htarget & Hcount & Hcalls & _).
  - reflexivity.
  - reflexivity.
  - reflexivity.
  - reflexivity.
  - lia.
  - reflexivity.
  - split; [lia|reflexivity].
  - discriminate.
  - reflexivity.
  - exact Hrun.
  - exists e', drawn. split; [reflexivity|].
    split; [reflexivity|]. split; [exact Hcount|exact Hcalls].
Defined.

Lemma X17_rendered_alpha_in_range_witness :
  exists e' drawn,
    OnUpdate zeroStream 32767 1 1000 slowFade = Done (e', drawn) /\
    Forall (fun r => 0 <= r_alpha r <= 255) drawn /\
    length drawn = activeCount (particlePool e').
Proof.
  destruct (OnUpdate zeroStream 32767 1 1000 slowFade) as [[e' drawn]| |]
    eqn:Hrun; try discriminate.
  exists e', drawn. split; [reflexivity|].
  apply (X17_rendered_alpha_in_range zeroStream 32767 0 0 0 1000 (1 # 2) 1 1
           [] 1 1000 slowFade e' drawn).
  - discriminate.
  - constructor.
  - discriminate.
  - reflexivity.
  - exact Hrun.
Defined.

End EmitterFacts.

(** * Circles *)

Module ShapeFacts.

Import Shapes.


Lemma Qtrunc_inject (z : Z) : Qtrunc (inject_Z z) = z.
Proof.
  unfold Qtrunc. rewrite Qfloor_Z, Qceiling_Z.
  now destruct (Qle_bool 0 (inject_Z z)).
Qed.

Lemma Qtrunc_sum (y z : Z) : Qtrunc (inject_Z y + inject_Z z) = y + z.
Proof.
  rewrite <- inject_Z_plus. apply Qtrunc_inject.
Qed.

Lemma Qtrunc_difference (y z : Z) : Qtrunc (inject_Z y - inject_Z z) = y - z.
Proof.
  unfold Qminus. rewrite <- inject_Z_opp. apply Qtrunc_sum.
Qed.

Lemma circlePoint_whole cx cy n c w h :
  circlePoint (wholeCircle cx cy n c) w h
  = if (n - w) * (n - w) + (n - h) * (n - h) <=? n * n
    then [SDL_RenderDrawPoint (cx + (n - w)) (cy + (n - h))]
    else [].
Proof.
  unfold circlePoint, wholeCircle. cbn [radius circle_x circle_y].
  rewrite !Qtrunc_difference, !Qtrunc_sum.
  rewrite <- inject_Z_mult.
  destruct (Z.leb_spec ((n - w) * (n - w) + (n - h) * (n - h)) (n * n)) as [H|H].
  - rewrite Zle_Qle in H. apply Qle_bool_iff in H. now rewrite H.
  - destruct (Qle_bool _ _) eqn:E; [|reflexivity].
    apply Qle_bool_iff in E. rewrite <- Zle_Qle in E. lia.
Qed.

Lemma square_bound (d n : Z) : 0 <= n -> d * d <= n * n -> - n <= d <= n.
Proof. intros Hn Hd. nia. Qed.

(** X18: every point a circle draws lies within the radius of the centre.
    For a whole centre with coordinates of at most 2^23 in size and a whole
    radius [n] below 4096, where the float32 and [int] arithmetic of the
    loop is exact, every point drawn is the centre moved by whole offsets
    [dx] and [dy] with [dx * dx + dy * dy <= n * n]; the colour set before
    is the circle's with green and blue exchanged. *)
Theorem X18_circle_points_within_radius
    (cx cy n : Z) (c : SDL_Color) (px py : Z) :
  0 <= n < 4096 -> - 2 ^ 23 <= cx <= 2 ^ 23 -> - 2 ^ 23 <= cy <= 2 ^ 23 ->
  In (SDL_RenderDrawPoint px py) (Circle_OnRender (wholeCircle cx cy n c)) ->
  (exists dx dy,
     px = cx + dx /\ py = cy + dy /\ dx * dx + dy * dy <= n * n /\
     - 2 ^ 24 < px < 2 ^ 24 /\ - 2 ^ 24 < py < 2 ^ 24 /\
     dx * dx + dy * dy < 2 ^ 24) /\
  hd_error (Circle_OnRender (wholeCircle cx cy n c))
  = Some (SDL_SetRenderDrawColor (r c) (b c) (g c) (a c)).
Proof.
  intros Hn Hcx Hcy Hin. split; [|reflexivity].
  unfold Circle_OnRender in Hin. destruct Hin as [Hcolor|Hin]; [discriminate|].
  apply in_flat_map in Hin as (w & _ & Hin).
  apply in_flat_map in Hin as (h & _ & Hin).
  rewrite circlePoint_whole in Hin.
  destruct (Z.leb_spec ((n - w) * (n - w) + (n - h) * (n - h)) (n * n))
    as [Hinside|Houtside]; [|contradiction].
  destruct Hin as [Hpoint|[]]. inversion Hpoint; subst.
  exists (n - w), (n - h).
  pose proof (Z.square_nonneg (n - w)) as Hw.
  pose proof (Z.square_nonneg (n - h)) as Hh.
  assert (- n <= n - w <= n) as Hdx by (apply square_bound; lia).
  assert (- n <= n - h <= n) as Hdy by (apply square_bound; lia).
  assert (n * n < 2 ^ 24) as Hsquare by nia.
  repeat split; try reflexivity; try exact Hinside; lia.
Qed.

Lemma X18_circle_points_within_radius_witness :
  exists dx dy,
    12 = 10 + dx /\ 20 = 20 + dy /\ dx * dx + dy * dy <= 2 * 2.
Proof.
  destruct (X18_circle_points_within_radius 10 20 2 COLOR_RED 12 20)
    as [(dx & dy & Hx & Hy & Hin & _) _].
  - lia.
  - lia.
  - lia.
  - vm_compute. tauto.
  - now exists dx, dy.
Defined.



End ShapeFacts.

(** * Textures *)

Module TextureFacts.

Import Textures.

Lemma countCalls_app f (l1 l2 : list SdlCall) :
  countCalls f (l1 ++ l2) = (countCalls f l1 + countCalls f l2)%nat.
Proof. unfold countCalls. now rewrite List.filter_app, length_app. Qed.

(** The balance of one operation. *)
Lemma perform_balance op t t' calls :
  perform op t = (t', calls) ->
  (texturesMade calls + held t = texturesDestroyed calls + held t')%nat /\
  surfacesMade calls = (surfacesFreed calls + failedCreations calls)%nat /\
  font t' = font t /\
  ((texture t = None -> width t = 0 /\ height t = 0) ->
   texture t' = None -> width t' = 0 /\ height t' = 0).
Proof.
  unfold perform, LoadTextureFromFile, LoadFromRenderedText, Free, held.
  destruct t as [tex w h f]. cbn [texture width height font].
  destruct op as [|[[[th tw] tht]|]|[[[s sw] sht]|] [c|]];
    destruct tex as [old|], f as [fnt|]; cbn;
    intros E; inversion E; subst; cbn; repeat split; auto; try discriminate;
    try tauto; try (intros; discriminate).
Qed.

(** X20: whatever is loaded and freed, in whatever order and with whatever
    success, the textures balance and the surfaces do not: every texture
    made has been destroyed except the one the object still holds, and the
    surfaces never freed are exactly those whose texture could not be
    made. *)
Theorem X20_texture_balance (ops : list Operation) (t t' : Texture)
    (calls : list SdlCall) :
  performAll ops t = (t', calls) ->
  (texturesMade calls + held t = texturesDestroyed calls + held t')%nat /\
  surfacesMade calls = (surfacesFreed calls + failedCreations calls)%nat.
Proof.
  revert t t' calls. induction ops as [|op rest IH]; intros t t' calls Hrun;
    cbn [performAll] in Hrun.
  - inversion Hrun; subst. now split.
  - destruct (perform op t) as [t1 calls1] eqn:Hop.
    destruct (performAll rest t1) as [t2 calls2] eqn:Hrest.
    inversion Hrun; subst.
    destruct (perform_balance _ _ _ _ Hop) as (Htex & Hsurf & _).
    destruct (IH _ _ _ Hrest) as (Htex' & Hsurf').
    unfold texturesMade, texturesDestroyed, surfacesMade, surfacesFreed,
      failedCreations in *.
    rewrite !countCalls_app. lia.
Qed.

Lemma performAll_empty ops : forall t0 t calls,
  (texture t0 = None -> width t0 = 0 /\ height t0 = 0) ->
  performAll ops t0 = (t, calls) ->
  (texture t = None -> width t = 0 /\ height t = 0) /\ font t = font t0.
Proof.
  induction ops as [|op rest IH]; intros t0 t calls Hzero Hrun;
    cbn [performAll] in Hrun.
  - inversion Hrun; subst. now split.
  - destruct (perform op t0) as [t1 calls1] eqn:Hop.
    destruct (performAll rest t1) as [t2 calls2] eqn:Hrest.
    inversion Hrun; subst.
    destruct (perform_balance _ _ _ _ Hop) as (_ & _ & Hf & Hz).
    destruct (IH _ _ _ (Hz Hzero) Hrest) as [Hzero' Hfont'].
    split; [exact Hzero' | congruence].
Qed.

(** X21: a texture object that holds no texture has width and height 0,
    after any operations; a load that fails leaves the object without a
    texture, whatever it held before, and rendering it then hands SDL no
    texture and an empty rectangle. *)
Theorem X21_unloaded_texture_is_empty (ops : list Operation)
    (fnt : option nat) (t : Texture) (calls : list SdlCall) :
  performAll ops (newTexture fnt) = (t, calls) ->
  (texture t = None -> width t = 0 /\ height t = 0) /\
  font t = fnt /\
  texture (LoadTextureFromFile None t).1.1 = None /\
  (forall created, texture (LoadFromRenderedText None created t).1.1 = None) /\
  (forall surface, texture (LoadFromRenderedText surface None t).1.1 = None) /\
  (forall x y alpha,
     Render x y None alpha (LoadTextureFromFile None t).1.1
     = [SDL_SetTextureAlphaMod None alpha; SDL_RenderCopyExF None x y 0 0]).
Proof.
  intros Hrun.
  destruct (performAll_empty ops (newTexture fnt) t calls) as [Hempty Hfont];
    [now split | exact Hrun |].
  split; [exact Hempty|]. split; [exact Hfont|].
  unfold LoadTextureFromFile, LoadFromRenderedText, Free, Render.
  destruct t as [[old|] w h f]; cbn in *.
  - repeat split.
    + now intros created; destruct f.
    + intros [[[s sw] sh]|]; now destruct f.
  - destruct (Hempty eq_refl) as [-> ->]. repeat split.
    + now intros created; destruct f.
    + intros [[[s sw] sh]|]; now destruct f.
Qed.

Lemma X20_texture_balance_witness :
  exists t' calls,
    performAll [DoLoadTextureFromFile (Some (7%nat, 32, 32));
                DoLoadFromRenderedText (Some (3%nat, 90, 28)) None;
                DoLoadTextureFromFile (Some (8%nat, 64, 64))]
               (newTexture (Some 1%nat)) = (t', calls) /\
    texturesMade calls = (texturesDestroyed calls + 1)%nat /\
    surfacesMade calls = (surfacesFreed calls + 1)%nat.
Proof.
  eexists _, _. split; [reflexivity|].
  match goal with
  | |- context [texturesMade ?calls] =>
      destruct (X20_texture_balance
                  [DoLoadTextureFromFile (Some (7%nat, 32, 32));
                   DoLoadFromRenderedText (Some (3%nat, 90, 28)) None;
                   DoLoadTextureFromFile (Some (8%nat, 64, 64))]
                  (newTexture (Some 1%nat)) _ calls eq_refl) as [Htex Hsurf]
  end.
  split; [exact Htex | exact Hsurf].
Defined.

Lemma X21_unloaded_texture_is_empty_witness :
  texture (LoadTextureFromFile None
             (performAll [DoLoadTextureFromFile (Some (7%nat, 32, 32))]
                         (newTexture None)).1).1.1 = None.
Proof.
  destruct (X21_unloaded_texture_is_empty
              [DoLoadTextureFromFile (Some (7%nat, 32, 32))] None _ _ eq_refl)
    as (_ & _ & Hfailed & _).
  exact Hfailed.
Defined.

End TextureFacts.
